(** * TacticalMesh: mesh routing core and local buffer

    A shallow embedding of [agent/mesh/routing.py], of the parts of
    [agent/mesh/peering.py] the router reads, and of [agent/buffer.py],
    followed by the properties of the specification that were checked
    against it.

    Modelling conventions.
    - Python [int] is [Z]; Python [float] (RTT estimates, reliability, the
      average hop count) is an exact rational [Q], so rounding, infinities
      and NaN are outside the model.
    - [datetime] values are [Z] microseconds (the resolution of Python's
      [datetime]); every read of [datetime.utcnow()] inside one call is the
      parameter [now] of that call.
    - [RoutePath] objects are mutable and shared between the lists of the
      route table and the lists [relay_message] works on, so they live in an
      object store and lists hold references.
    - Dictionaries are [gmap]s.  Frames on the socket are kept structured;
      the JSON and UTF-8 layers are not modelled, the outcome of
      [RelayMessage.from_bytes] is an [option].
    - The UDP socket and the controller client are external: the socket
      carries an oracle telling which [sendto] calls raise, the client carries
      the outcomes of its calls. *)

From Stdlib Require Import ZArith QArith Lia Lqa Sorted.
From stdpp Require Import gmap strings list fin_maps.

Local Open Scope Z_scope.
Set Warnings "-register-all".

(** ** Time *)

Definition datetime : Type := Z.

(** [timedelta(seconds=s)], in microseconds. *)
Definition timedelta (seconds : Z) : Z := seconds * 1000000.

(** ** Python values *)

(** True division of two integers, [a / b], kept in lowest terms. *)
Definition truediv (a b : Z) : Q := Qred (inject_Z a / inject_Z b).

(** What [json.loads] can produce; objects keep their keys in order. *)
Inductive JSON : Type :=
| JNull
| JBool (b : bool)
| JNum (q : Q)
| JStr (s : string)
| JArr (l : list JSON)
| JObj (fields : list (string * JSON)).

(** [d.get(key)] on a parsed object. *)
Fixpoint dict_get (key : string) (fields : list (string * JSON)) : option JSON :=
  match fields with
  | [] => None
  | (k, v) :: rest => if String.eqb k key then Some v else dict_get key rest
  end.

(** The exceptions the model tells apart: the two the router's own code can
    raise, and whatever an external call raises. *)
Inductive Exception : Type :=
| AttributeError
| RuntimeError
| ExternalError.

(** The result of a call that may raise. *)
Inductive Outcome (A : Type) : Type :=
| Return (a : A)
| Raise (e : Exception).
Arguments Return {A} a.
Arguments Raise {A} e.

(** ** peering.py *)

Inductive PeerStatus : Type := UNKNOWN | DISCOVERED | REACHABLE | UNREACHABLE.

Definition PeerStatus_eqb (a b : PeerStatus) : bool :=
  match a, b with
  | UNKNOWN, UNKNOWN | DISCOVERED, DISCOVERED
  | REACHABLE, REACHABLE | UNREACHABLE, UNREACHABLE => true
  | _, _ => false
  end.

Definition Addr : Type := string * Z.

Definition Addr_eqb (a b : Addr) : bool :=
  String.eqb (fst a) (fst b) && (snd a =? snd b).

Record PeerInfo : Type := mkPeerInfo {
  peer_node_id : string;
  address : string;
  port : Z;
  status : PeerStatus;
  last_seen : option datetime;
  rtt_ms : option Q
}.

(** ** routing.py: RoutePath *)

Record RoutePath : Type := mkRoutePath {
  target : string;
  next_hop : string;
  next_hop_addr : Addr;
  total_hops : Z;
  estimated_rtt_ms : Q;
  last_updated : datetime;
  reliability : Q;
  success_count : Z;
  failure_count : Z
}.

(** The dataclass defaults: [reliability = 1.0], both counters zero. *)
Definition new_RoutePath (tgt nh : string) (addr : Addr) (hops : Z) (rtt : Q)
    (updated : datetime) : RoutePath :=
  mkRoutePath tgt nh addr hops rtt updated 1 0 0.

Definition set_reliability (q : Q) (r : RoutePath) : RoutePath :=
  mkRoutePath (target r) (next_hop r) (next_hop_addr r) (total_hops r)
    (estimated_rtt_ms r) (last_updated r) q (success_count r) (failure_count r).

Definition set_last_updated (t : datetime) (r : RoutePath) : RoutePath :=
  mkRoutePath (target r) (next_hop r) (next_hop_addr r) (total_hops r)
    (estimated_rtt_ms r) t (reliability r) (success_count r) (failure_count r).

Definition set_success_count (n : Z) (r : RoutePath) : RoutePath :=
  mkRoutePath (target r) (next_hop r) (next_hop_addr r) (total_hops r)
    (estimated_rtt_ms r) (last_updated r) (reliability r) n (failure_count r).

Definition set_failure_count (n : Z) (r : RoutePath) : RoutePath :=
  mkRoutePath (target r) (next_hop r) (next_hop_addr r) (total_hops r)
    (estimated_rtt_ms r) (last_updated r) (reliability r) (success_count r) n.

(** [RoutePath.is_expired]: the age is compared with a literal 60 seconds. *)
Definition is_expired (now : datetime) (r : RoutePath) : bool :=
  timedelta 60 <? now - last_updated r.

Definition _update_reliability (r : RoutePath) : RoutePath :=
  let total := success_count r + failure_count r in
  if 0 <? total then set_reliability (truediv (success_count r) total) r else r.

Definition record_success (now : datetime) (r : RoutePath) : RoutePath :=
  set_last_updated now
    (_update_reliability (set_success_count (success_count r + 1) r)).

Definition record_failure (r : RoutePath) : RoutePath :=
  _update_reliability (set_failure_count (failure_count r + 1) r).

(** ** routing.py: RelayMessage *)

Record RelayMessage : Type := mkRelayMessage {
  message_id : string;
  msg_type : string;
  origin_node_id : string;
  destination : string;
  hop_count : Z;
  max_hops : Z;
  payload : JSON;
  path_trace : list string;
  timestamp : string
}.

(** [increment_hop] mutates the message and returns a flag; here it returns
    the flag together with the mutated message. *)
Definition increment_hop (node : string) (m : RelayMessage) : bool * RelayMessage :=
  let m' := mkRelayMessage (message_id m) (msg_type m) (origin_node_id m)
              (destination m) (hop_count m + 1) (max_hops m) (payload m)
              (path_trace m ++ [node]) (timestamp m) in
  (hop_count m' <=? max_hops m', m').

(** ** Frames of the routing protocol

    [MSG_ROUTE_REQUEST] is byte 4, [MSG_ROUTE_RESPONSE] 5, [MSG_RELAY_DATA] 6
    and [MSG_RELAY_ACK] 7; a frame is the type byte followed by its fields. *)

Inductive Frame : Type :=
| MSG_ROUTE_REQUEST (sender request_id dest : string)
| MSG_ROUTE_RESPONSE (sender request_id dest : string) (hops : Z) (rtt : Q)
| MSG_RELAY_DATA (m : RelayMessage)
| MSG_RELAY_ACK (mid : string) (success : bool).

(** ** External collaborators *)

(** The peering socket.  [sendto_raises i] tells whether the [i]-th call of
    [sendto] on this socket raises; [sent] lists the datagrams that went out,
    oldest first. *)
Record Socket : Type := mkSocket {
  sendto_raises : nat -> bool;
  sendto_calls : nat;
  sent : list (Frame * Addr)
}.

Record MeshPeering : Type := mkMeshPeering {
  peers : gmap string PeerInfo;
  _socket : option Socket
}.

(** The controller client: [last_success], the optional [health_check]
    method and the outcomes of its two delivery calls. *)
Record ControllerClient : Type := mkControllerClient {
  last_success : option datetime;
  health_check : option (Outcome bool);
  heartbeat :
    string -> option JSON -> option JSON -> option JSON -> JSON ->
    Outcome (option JSON);
  report_command_result :
    option JSON -> option JSON -> option JSON -> option JSON -> Outcome bool
}.

(** ** routing.py: MeshRouter *)

Record Metrics : Type := mkMetrics {
  routes_discovered : Z;
  messages_relayed : Z;
  successful_deliveries : Z;
  failed_relays : Z;
  avg_hop_count : Q
}.

(** A reference to a [RoutePath] object. *)
Definition Ref : Type := nat.

Record MeshRouter : Type := mkMeshRouter {
  node_id : string;
  peering : MeshPeering;
  controller_client : ControllerClient;
  route_cache_ttl : Z;
  router_max_hops : Z;
  objects : gmap Ref RoutePath;
  route_table : gmap string (list Ref);
  pending_requests : gmap string datetime;
  relay_cache : gmap string RelayMessage;
  metrics : Metrics;
  _hop_counts : list Z
}.

(** [MeshRouter.__init__]. *)
Definition MeshRouter_init (nid : string) (p : MeshPeering) (c : ControllerClient)
    (ttl hops : Z) : MeshRouter :=
  mkMeshRouter nid p c ttl hops ∅ ∅ ∅ ∅ (mkMetrics 0 0 0 0 0) [].

Definition set_peering (p : MeshPeering) (R : MeshRouter) : MeshRouter :=
  mkMeshRouter (node_id R) p (controller_client R) (route_cache_ttl R)
    (router_max_hops R) (objects R) (route_table R) (pending_requests R)
    (relay_cache R) (metrics R) (_hop_counts R).

Definition set_controller_client (c : ControllerClient) (R : MeshRouter) : MeshRouter :=
  mkMeshRouter (node_id R) (peering R) c (route_cache_ttl R)
    (router_max_hops R) (objects R) (route_table R) (pending_requests R)
    (relay_cache R) (metrics R) (_hop_counts R).

Definition set_objects (o : gmap Ref RoutePath) (R : MeshRouter) : MeshRouter :=
  mkMeshRouter (node_id R) (peering R) (controller_client R) (route_cache_ttl R)
    (router_max_hops R) o (route_table R) (pending_requests R)
    (relay_cache R) (metrics R) (_hop_counts R).

Definition set_route_table (t : gmap string (list Ref)) (R : MeshRouter) : MeshRouter :=
  mkMeshRouter (node_id R) (peering R) (controller_client R) (route_cache_ttl R)
    (router_max_hops R) (objects R) t (pending_requests R)
    (relay_cache R) (metrics R) (_hop_counts R).

Definition set_pending_requests (p : gmap string datetime) (R : MeshRouter) : MeshRouter :=
  mkMeshRouter (node_id R) (peering R) (controller_client R) (route_cache_ttl R)
    (router_max_hops R) (objects R) (route_table R) p
    (relay_cache R) (metrics R) (_hop_counts R).

Definition set_relay_cache (c : gmap string RelayMessage) (R : MeshRouter) : MeshRouter :=
  mkMeshRouter (node_id R) (peering R) (controller_client R) (route_cache_ttl R)
    (router_max_hops R) (objects R) (route_table R) (pending_requests R)
    c (metrics R) (_hop_counts R).

Definition set_metrics (m : Metrics) (R : MeshRouter) : MeshRouter :=
  mkMeshRouter (node_id R) (peering R) (controller_client R) (route_cache_ttl R)
    (router_max_hops R) (objects R) (route_table R) (pending_requests R)
    (relay_cache R) m (_hop_counts R).

Definition set_hop_counts (l : list Z) (R : MeshRouter) : MeshRouter :=
  mkMeshRouter (node_id R) (peering R) (controller_client R) (route_cache_ttl R)
    (router_max_hops R) (objects R) (route_table R) (pending_requests R)
    (relay_cache R) (metrics R) l.

(** [metrics["failed_relays"] += 1] and its siblings. *)
Definition incr_failed_relays (R : MeshRouter) : MeshRouter :=
  let m := metrics R in
  set_metrics (mkMetrics (routes_discovered m) (messages_relayed m)
                 (successful_deliveries m) (failed_relays m + 1) (avg_hop_count m)) R.

Definition incr_messages_relayed (R : MeshRouter) : MeshRouter :=
  let m := metrics R in
  set_metrics (mkMetrics (routes_discovered m) (messages_relayed m + 1)
                 (successful_deliveries m) (failed_relays m) (avg_hop_count m)) R.

Definition incr_successful_deliveries (R : MeshRouter) : MeshRouter :=
  let m := metrics R in
  set_metrics (mkMetrics (routes_discovered m) (messages_relayed m)
                 (successful_deliveries m + 1) (failed_relays m) (avg_hop_count m)) R.

Definition incr_routes_discovered (R : MeshRouter) : MeshRouter :=
  let m := metrics R in
  set_metrics (mkMetrics (routes_discovered m + 1) (messages_relayed m)
                 (successful_deliveries m) (failed_relays m) (avg_hop_count m)) R.

Definition set_avg_hop_count (q : Q) (R : MeshRouter) : MeshRouter :=
  let m := metrics R in
  set_metrics (mkMetrics (routes_discovered m) (messages_relayed m)
                 (successful_deliveries m) (failed_relays m) q) R.

(** The object a reference points to.  References held by the route table
    always point into the store; the default is never looked at there. *)
#[global] Instance RoutePath_inhabited : Inhabited RoutePath :=
  populate (new_RoutePath "" "" ("", 0) 0 0 0).

Definition deref (R : MeshRouter) (p : Ref) : RoutePath := objects R !!! p.

(** In-place mutation of the object behind a reference. *)
Definition mutate (f : RoutePath -> RoutePath) (p : Ref) (R : MeshRouter) : MeshRouter :=
  set_objects (<[p := f (deref R p)]> (objects R)) R.

(** *** Controller connectivity *)

Definition can_reach_controller_directly (now : datetime) (R : MeshRouter) : bool :=
  match last_success (controller_client R) with
  | Some t => now - t <? timedelta 60
  | None =>
      match health_check (controller_client R) with
      | Some (Return b) => b
      | Some (Raise _) => false
      | None => false
      end
  end.

(** *** Helper methods *)

(** [_send_to_peer]: hands the frame to the socket, and raises when there is
    no socket or when [sendto] raises. *)
Definition _send_to_peer (data : Frame) (addr : Addr) (R : MeshRouter)
    : Outcome unit * MeshRouter :=
  match _socket (peering R) with
  | Some s =>
      if sendto_raises s (sendto_calls s) then
        (Raise ExternalError,
         set_peering (mkMeshPeering (peers (peering R))
                        (Some (mkSocket (sendto_raises s) (S (sendto_calls s)) (sent s)))) R)
      else
        (Return tt,
         set_peering (mkMeshPeering (peers (peering R))
                        (Some (mkSocket (sendto_raises s) (S (sendto_calls s))
                                 (sent s ++ [(data, addr)])))) R)
  | None => (Raise RuntimeError, R)
  end.

Definition sum_Z (l : list Z) : Z := foldr Z.add 0 l.

(** [l[-100:]]. *)
Definition last_100 (l : list Z) : list Z := drop (length l - 100)%nat l.

Definition _update_avg_hop_count (R : MeshRouter) : MeshRouter :=
  match _hop_counts R with
  | [] => R
  | _ =>
      let R1 := if (100 <? length (_hop_counts R))%nat
                then set_hop_counts (last_100 (_hop_counts R)) R else R in
      set_avg_hop_count
        (truediv (sum_Z (_hop_counts R1)) (Z.of_nat (length (_hop_counts R1)))) R1
  end.

(** *** Ordering of routes *)

Definition Qltb (a b : Q) : bool :=
  match Qcompare a b with Lt => true | _ => false end.

(** The key [(r.total_hops, r.estimated_rtt_ms, -r.reliability)]. *)
Definition sort_key (r : RoutePath) : Z * Q * Q :=
  (total_hops r, estimated_rtt_ms r, - reliability r)%Q.

(** Python's [<] on such tuples: the first component that differs decides. *)
Definition key_ltb (a b : Z * Q * Q) : bool :=
  let '(h1, t1, n1) := a in
  let '(h2, t2, n2) := b in
  if negb (h1 =? h2) then h1 <? h2
  else if negb (Qeq_bool t1 t2) then Qltb t1 t2
  else Qltb n1 n2.

(** [list.sort(key=...)] is a stable sort that only uses [<] on keys; the
    stable insertion sort below computes the same list. *)
Fixpoint insert_sorted {A : Type} (key : A -> Z * Q * Q) (x : A) (l : list A) : list A :=
  match l with
  | [] => [x]
  | y :: l' => if key_ltb (key y) (key x) then y :: insert_sorted key x l' else x :: l
  end.

Definition list_sort {A : Type} (key : A -> Z * Q * Q) (l : list A) : list A :=
  foldr (insert_sorted key) [] l.

(** [x or d] on an optional float: [None] and [0.0] are falsy. *)
Definition float_or (x : option Q) (d : Q) : Q :=
  match x with
  | Some q => if Qeq_bool q 0 then d else q
  | None => d
  end.

(** *** Route discovery *)

Definition get_reachable_peers (p : MeshPeering) : list PeerInfo :=
  List.filter (fun q => PeerStatus_eqb (status q) REACHABLE)
    (snd <$> map_to_list (peers p)).

(** [discover_routes]; [request_id] stands for the fresh [uuid4] prefix.
    Peers are visited in the order the peer map lists them. *)
Definition discover_routes (now : datetime) (request_id dest : string)
    (R : MeshRouter) : string * MeshRouter :=
  let R1 := set_pending_requests (<[request_id := now]> (pending_requests R)) R in
  let message := MSG_ROUTE_REQUEST (node_id R) request_id dest in
  (request_id,
   foldl (fun acc peer => snd (_send_to_peer message (address peer, port peer) acc))
     R1 (get_reachable_peers (peering R1))).

Definition handle_route_response (now : datetime) (sender_id : string)
    (sender_addr : Addr) (request_id dest : string) (hops : Z) (rtt : Q)
    (R : MeshRouter) : Outcome unit * MeshRouter :=
  match pending_requests R !! request_id with
  | None => (Return tt, R)
  | Some _ =>
      (* [self.peering.peers.get(sender_id, {}).rtt_ms]: the default [{}]
         has no attribute [rtt_ms] *)
      match peers (peering R) !! sender_id with
      | None => (Raise AttributeError, R)
      | Some peer =>
          let route :=
            new_RoutePath dest sender_id sender_addr (hops + 1)
              (rtt + float_or (rtt_ms peer) 20)%Q now in
          let routes := default [] (route_table R !! dest) in
          let R1 := set_route_table (<[dest := routes]> (route_table R)) R in
          match List.filter (fun p => String.eqb (next_hop (deref R1 p)) sender_id) routes with
          | existing :: _ =>
              (Return tt,
               mutate (fun r =>
                         mkRoutePath (target r) (next_hop r) (next_hop_addr r)
                           (total_hops route) (estimated_rtt_ms route)
                           (last_updated route) (reliability r)
                           (success_count r) (failure_count r))
                 existing R1)
          | [] =>
              let p := fresh (dom (objects R1)) in
              (Return tt,
               incr_routes_discovered
                 (set_route_table (<[dest := routes ++ [p]]> (route_table R1))
                    (set_objects (<[p := route]> (objects R1)) R1)))
          end
      end
  end.

(** *** Route selection *)

(** [[r for r in self.route_table[destination] if not r.is_expired]]. *)
Definition valid_routes (now : datetime) (R : MeshRouter) (l : list Ref) : list Ref :=
  List.filter (fun p => negb (is_expired now (deref R p))) l.

Definition has_route_to (now : datetime) (dest : string) (R : MeshRouter) : bool :=
  match route_table R !! dest with
  | None => false
  | Some l => (0 <? length (valid_routes now R l))%nat
  end.

Definition select_best_route (now : datetime) (dest : string) (R : MeshRouter)
    : option Ref :=
  match route_table R !! dest with
  | None => None
  | Some l =>
      match valid_routes now R l with
      | [] => None
      | valid => head (list_sort (fun p => sort_key (deref R p)) valid)
      end
  end.

Definition get_all_routes (now : datetime) (dest : string) (R : MeshRouter)
    : list Ref :=
  match route_table R !! dest with
  | None => []
  | Some l => valid_routes now R l
  end.

Definition invalidate_route (dest nh : string) (R : MeshRouter) : MeshRouter :=
  match route_table R !! dest with
  | None => R
  | Some l =>
      set_route_table
        (<[dest := List.filter (fun p => negb (String.eqb (next_hop (deref R p)) nh)) l]>
           (route_table R)) R
  end.

(** *** Message relay *)

(** The circuit-breaker filter of [relay_message]:
    [r.reliability >= 0.2 or r.failure_count < 3]. *)
Definition is_viable (r : RoutePath) : bool :=
  Qle_bool (2 # 10) (reliability r) || (failure_count r <? 3).

(** The [for route in viable_routes] loop of [relay_message], from the state
    in which [attempts] sends were made and the next hops in [tried_peers]
    were tried.  The flag tells whether the loop left through [return True]. *)
Fixpoint relay_loop (now : datetime) (message : RelayMessage) (max_retries : Z)
    (viable_routes : list Ref) (attempts : Z) (tried_peers : gset string)
    (R : MeshRouter) : bool * MeshRouter :=
  match viable_routes with
  | [] => (false, R)
  | route :: rest =>
      if max_retries + 1 <=? attempts then (false, R)
      else if bool_decide (next_hop (deref R route) ∈ tried_peers) then
        relay_loop now message max_retries rest attempts tried_peers R
      else
        let tried_peers := {[next_hop (deref R route)]} ∪ tried_peers in
        let attempts := attempts + 1 in
        match _send_to_peer (MSG_RELAY_DATA message) (next_hop_addr (deref R route)) R with
        | (Return _, R1) =>
            let R2 := mutate (record_success now) route R1 in
            let R3 := incr_messages_relayed R2 in
            let R4 := set_hop_counts (_hop_counts R3 ++ [hop_count message]) R3 in
            (true, _update_avg_hop_count R4)
        | (Raise _, R1) =>
            relay_loop now message max_retries rest attempts tried_peers
              (mutate record_failure route R1)
        end
  end.

(** [all_routes] of [relay_message] after its [sort]. *)
Definition sorted_routes (now : datetime) (dest : string) (R : MeshRouter) : list Ref :=
  list_sort (fun p => sort_key (deref R p)) (get_all_routes now dest R).

(** [viable_routes] of [relay_message]: the sorted routes that pass the
    circuit-breaker filter, or all sorted routes when none passes. *)
Definition viable_routes (now : datetime) (dest : string) (R : MeshRouter) : list Ref :=
  match List.filter (fun p => is_viable (deref R p)) (sorted_routes now dest R) with
  | [] => sorted_routes now dest R
  | viable => viable
  end.

(** [relay_message]: the returned flag, the message as the call leaves it,
    and the router as the call leaves it. *)
Definition relay_message (now : datetime) (message : RelayMessage) (max_retries : Z)
    (R : MeshRouter) : bool * RelayMessage * MeshRouter :=
  if max_hops message <=? hop_count message then
    (false, message, incr_failed_relays R)
  else
    match get_all_routes now (destination message) R with
    | [] => (false, message, incr_failed_relays R)
    | _ =>
        let viable := viable_routes now (destination message) R in
        let '(ok, message) := increment_hop (node_id R) message in
        if negb ok then (false, message, incr_failed_relays R)
        else
          let R1 := set_relay_cache (<[message_id message := message]> (relay_cache R)) R in
          match relay_loop now message max_retries viable 0 ∅ R1 with
          | (true, R2) => (true, message, R2)
          | (false, R2) =>
              let R3 := incr_failed_relays R2 in
              (false, message,
               set_relay_cache (delete (message_id message) (relay_cache R3)) R3)
          end
    end.

(** [_send_relay_ack] builds the ack frame into a local variable and logs;
    nothing is handed to the socket. *)
Definition _send_relay_ack (mid origin : string) (success : bool)
    (R : MeshRouter) : MeshRouter :=
  let message := MSG_RELAY_ACK mid success in
  R.

Definition _handle_message_for_self (message : RelayMessage) (sender_addr : Addr)
    (R : MeshRouter) : MeshRouter :=
  _send_relay_ack (message_id message) (origin_node_id message) true R.

(** Every reference held by the route table, list after list. *)
Definition all_route_refs (R : MeshRouter) : list Ref :=
  concat (snd <$> map_to_list (route_table R)).

(** The [try] block of [_forward_to_controller]: an exception of the client,
    or of [payload.get] on a payload that is no object, leaves [success]
    false. *)
Definition deliver_to_controller (message : RelayMessage) (c : ControllerClient) : bool :=
  if String.eqb (msg_type message) "heartbeat" then
    match payload message with
    | JObj f =>
        match heartbeat c (origin_node_id message) (dict_get "cpu_usage" f)
                (dict_get "memory_usage" f) (dict_get "disk_usage" f)
                (default (JObj []) (dict_get "custom_metrics" f)) with
        | Return result => bool_decide (is_Some result)
        | Raise _ => false
        end
    | _ => false
    end
  else if String.eqb (msg_type message) "command_result" then
    match payload message with
    | JObj f =>
        match report_command_result c (dict_get "command_id" f) (dict_get "status" f)
                (dict_get "result" f) (dict_get "error_message" f) with
        | Return _ => true
        | Raise _ => false
        end
    | _ => false
    end
  else false.

Definition _forward_to_controller (now : datetime) (message : RelayMessage)
    (sender_addr : Addr) (R : MeshRouter) : bool * MeshRouter :=
  let success := deliver_to_controller message (controller_client R) in
  let R1 :=
    if success then
      foldl (fun acc p =>
               if Addr_eqb (next_hop_addr (deref acc p)) sender_addr
               then mutate (record_success now) p acc else acc)
        (incr_successful_deliveries R) (all_route_refs R)
    else R in
  (success, _send_relay_ack (message_id message) (origin_node_id message) success R1).

(** [handle_incoming_relay]; [parsed] is the outcome of
    [RelayMessage.from_bytes(data)], [None] when it raises. *)
Definition handle_incoming_relay (now : datetime) (parsed : option RelayMessage)
    (sender_addr : Addr) (R : MeshRouter) : MeshRouter :=
  match parsed with
  | None => R
  | Some message =>
      if String.eqb (destination message) (node_id R) then
        _handle_message_for_self message sender_addr R
      else if String.eqb (destination message) "controller"
              && can_reach_controller_directly now R then
        snd (_forward_to_controller now message sender_addr R)
      else if hop_count message <? max_hops message then
        snd (relay_message now message 2 R)
      else R
  end.

(** [cleanup_expired_routes]: the number of removed routes and the router. *)
Definition cleanup_expired_routes (now : datetime) (R : MeshRouter) : Z * MeshRouter :=
  let removed :=
    map_fold (fun _ l acc =>
                acc + (Z.of_nat (length l) - Z.of_nat (length (valid_routes now R l))))
      0 (route_table R) in
  (removed,
   set_route_table
     (omap (fun l => match valid_routes now R l with
                     | [] => None
                     | l' => Some l'
                     end) (route_table R)) R).

(** *** Answering route requests, acknowledgements *)

(** [_send_route_response].  [struct.pack('!H', hops)] raises unless
    [0 <= hops <= 65535], before anything is sent; the packing of [rtt_ms]
    into a 32-bit float is outside the model. *)
Definition _send_route_response (addr : Addr) (request_id dest : string)
    (hops : Z) (rtt : Q) (R : MeshRouter) : Outcome unit * MeshRouter :=
  if (0 <=? hops) && (hops <=? 65535) then
    _send_to_peer (MSG_ROUTE_RESPONSE (node_id R) request_id dest hops rtt) addr R
  else (Raise ExternalError, R).

(** The distance [handle_route_request] computes: [(hops, rtt_ms)], with
    [hops = -1] when this node has no route to offer. *)
Definition route_offer (now : datetime) (dest : string) (R : MeshRouter) : Z * Q :=
  if String.eqb dest "controller" then
    if can_reach_controller_directly now R then (0, 10%Q)
    else
      match select_best_route now dest R with
      | Some route =>
          if negb (is_expired now (deref R route)) then
            (total_hops (deref R route) + 1,
             (estimated_rtt_ms (deref R route) + 20)%Q)
          else (-1, 0%Q)
      | None => (-1, 0%Q)
      end
  else if String.eqb dest (node_id R) then (0, 0%Q)
  else
    match peers (peering R) !! dest with
    | Some peer =>
        if PeerStatus_eqb (status peer) REACHABLE
        then (1, float_or (rtt_ms peer) 50)
        else (-1, 0%Q)
    | None => (-1, 0%Q)
    end.

Definition handle_route_request (now : datetime) (sender_id : string)
    (sender_addr : Addr) (request_id dest : string) (R : MeshRouter)
    : Outcome unit * MeshRouter :=
  let '(hops, rtt) := route_offer now dest R in
  if 0 <=? hops then _send_route_response sender_addr request_id dest hops rtt R
  else (Return tt, R).

(** [handle_relay_ack].  [has_callback] tells whether [_on_relay_complete]
    is set; the first component is the call made to it, if any. *)
Definition handle_relay_ack (has_callback : bool) (mid : string) (success : bool)
    (R : MeshRouter) : option (string * bool) * MeshRouter :=
  match relay_cache R !! mid with
  | Some _ =>
      (if has_callback then Some (mid, success) else None,
       set_relay_cache (delete mid (relay_cache R)) R)
  | None => (None, R)
  end.

(** ** peering.py: the peer table

    [MeshPeering] above keeps what the router reads, the peer table and the
    socket.  The functions below are the methods of [MeshPeering] that maintain
    the peer table; [self.node_id] and [self.peer_timeout] are their
    parameters [self_id] and [peer_timeout], and the callback a method would
    invoke, if one is registered, is returned as an event. *)

(** [PeerInfo.is_stale]. *)
Definition is_stale (now : datetime) (p : PeerInfo) : bool :=
  match last_seen p with
  | None => true
  | Some t => timedelta 60 <? now - t
  end.

Definition add_static_peer (self_id nid addr : string) (prt : Z)
    (P : MeshPeering) : MeshPeering :=
  if String.eqb nid self_id then P
  else
    mkMeshPeering (<[nid := mkPeerInfo nid addr prt DISCOVERED None None]> (peers P))
      (_socket P).

(** A call to [_on_peer_discovered(peer)] or to
    [_on_peer_status_changed(peer, old_status)]. *)
Inductive PeerEvent : Type :=
| peer_discovered (peer : PeerInfo)
| peer_status_changed (peer : PeerInfo) (old_status : PeerStatus).

Definition _update_peer_status (now : datetime) (nid : string) (addr : Addr)
    (st : PeerStatus) (rtt : option Q) (P : MeshPeering)
    : option PeerEvent * MeshPeering :=
  match peers P !! nid with
  | Some peer =>
      let peer' :=
        mkPeerInfo (peer_node_id peer) (address peer) (port peer) st (Some now)
          (match rtt with Some r => Some r | None => rtt_ms peer end) in
      (if PeerStatus_eqb (status peer) st then None
       else Some (peer_status_changed peer' (status peer)),
       mkMeshPeering (<[nid := peer']> (peers P)) (_socket P))
  | None =>
      let peer := mkPeerInfo nid (fst addr) (snd addr) st (Some now) rtt in
      (Some (peer_discovered peer),
       mkMeshPeering (<[nid := peer]> (peers P)) (_socket P))
  end.

(** [(datetime.utcnow() - t).total_seconds()]. *)
Definition total_seconds (now t : datetime) : Q := inject_Z (now - t) / 1000000.

(** [_check_peer_timeout], on the peer object it is given. *)
Definition _check_peer_timeout (now : datetime) (peer_timeout : Q) (peer : PeerInfo)
    : option PeerEvent * PeerInfo :=
  match last_seen peer with
  | None => (None, peer)
  | Some t =>
      if Qltb peer_timeout (total_seconds now t)
         && PeerStatus_eqb (status peer) REACHABLE then
        let peer' := mkPeerInfo (peer_node_id peer) (address peer) (port peer)
                       UNREACHABLE (last_seen peer) (rtt_ms peer) in
        (Some (peer_status_changed peer' (status peer)), peer')
      else (None, peer)
  end.

(** The timeout checks of one pass of [_heartbeat_loop], which runs
    [_check_peer_timeout] on every peer of the table. *)
Definition check_peer_timeouts (now : datetime) (peer_timeout : Q)
    (P : MeshPeering) : MeshPeering :=
  mkMeshPeering ((fun peer => snd (_check_peer_timeout now peer_timeout peer)) <$> peers P)
    (_socket P).

(** [status.value]. *)
Definition status_value (st : PeerStatus) : string :=
  match st with
  | UNKNOWN => "unknown"
  | DISCOVERED => "discovered"
  | REACHABLE => "reachable"
  | UNREACHABLE => "unreachable"
  end.

(** [get_peer_status_summary]: a dictionary with the four status values as
    keys, counting peers. *)
Definition get_peer_status_summary (P : MeshPeering) : gmap string Z :=
  foldl (fun summary peer =>
           <[status_value (status peer) :=
               (summary !!! status_value (status peer)) + 1]> summary)
    (list_to_map ((fun st => (status_value st, 0))
                    <$> [UNKNOWN; DISCOVERED; REACHABLE; UNREACHABLE]))
    (snd <$> map_to_list (peers P)).

(** [send_raw]: the flag it returns, and the peering layer afterwards; the
    socket error is caught and logged. *)
Definition send_raw (data : Frame) (addr : Addr) (P : MeshPeering) : bool * MeshPeering :=
  match _socket P with
  | None => (false, P)
  | Some s =>
      if sendto_raises s (sendto_calls s) then
        (false, mkMeshPeering (peers P)
                  (Some (mkSocket (sendto_raises s) (S (sendto_calls s)) (sent s))))
      else
        (true, mkMeshPeering (peers P)
                 (Some (mkSocket (sendto_raises s) (S (sendto_calls s))
                          (sent s ++ [(data, addr)]))))
  end.

(** What the peering layer does to its peer table. *)
Inductive peering_step (self_id : string) : MeshPeering -> MeshPeering -> Prop :=
| step_add_static_peer nid addr prt P :
    peering_step self_id P (add_static_peer self_id nid addr prt P)
| step_update_peer_status now nid addr st rtt P :
    peering_step self_id P (snd (_update_peer_status now nid addr st rtt P))
| step_check_peer_timeouts now peer_timeout P :
    peering_step self_id P (check_peer_timeouts now peer_timeout P)
| step_send_raw data addr P :
    peering_step self_id P (snd (send_raw data addr P)).

(** The peering layers that exist at run time: an empty peer table, then
    steps. *)
Inductive peering_reachable (self_id : string) : MeshPeering -> Prop :=
| peering_init sock :
    peering_reachable self_id (mkMeshPeering ∅ sock)
| peering_next P P' :
    peering_reachable self_id P -> peering_step self_id P P' ->
    peering_reachable self_id P'.

(** What holds of every entry of a peer table at run time: it sits under its
    own node id, and a peer that was never seen is a configured peer that
    is still DISCOVERED and has no RTT. *)
Definition peer_table_invariant (P : MeshPeering) : Prop :=
  forall k peer,
    peers P !! k = Some peer ->
    peer_node_id peer = k /\
    (last_seen peer = None -> status peer = DISCOVERED /\ rtt_ms peer = None).

(** ** buffer.py *)

Module Buffer.

Record BufferedItem : Type := mkBufferedItem {
  item_type : string;
  data : JSON;
  timestamp : string;
  attempt_count : Z
}.

(** The buffer object, and the image of its file: [disk] is what the file at
    [persist_path] holds ([None] while there is no file); the [saved_at]
    stamp of the file is not modelled. *)
Record LocalBuffer : Type := mkLocalBuffer {
  max_items : Z;
  persist_path : option string;
  flush_batch_size : Z;
  items : list BufferedItem;
  disk : option (list BufferedItem)
}.

(** [if self.persist_path:], false for [None] and for the empty string. *)
Definition persist_configured (b : LocalBuffer) : bool :=
  match persist_path b with
  | Some s => negb (String.eqb s "")
  | None => false
  end.

Definition set_items (l : list BufferedItem) (b : LocalBuffer) : LocalBuffer :=
  mkLocalBuffer (max_items b) (persist_path b) (flush_batch_size b) l (disk b).

(** [_save_to_disk]; [io_ok] tells whether the write goes through, a failed
    write is logged and leaves the file as it was. *)
Definition _save_to_disk (io_ok : bool) (b : LocalBuffer) : LocalBuffer :=
  if persist_configured b && io_ok then
    mkLocalBuffer (max_items b) (persist_path b) (flush_batch_size b) (items b)
      (Some (items b))
  else b.

(** [_add_item]; [ts] is [datetime.utcnow().isoformat()]. *)
Definition _add_item (io_ok : bool) (ty : string) (d : JSON) (ts : string)
    (b : LocalBuffer) : LocalBuffer :=
  let item := mkBufferedItem ty d ts 0 in
  let b1 := set_items (items b ++ [item]) b in
  let b2 :=
    if max_items b1 <? Z.of_nat (length (items b1)) then
      let dropped := Z.of_nat (length (items b1)) - max_items b1 in
      set_items (drop (Z.to_nat dropped) (items b1)) b1
    else b1 in
  if persist_configured b2 then _save_to_disk io_ok b2 else b2.

Definition add_telemetry (io_ok : bool) (telemetry_data : JSON) (ts : string)
    (b : LocalBuffer) : LocalBuffer :=
  _add_item io_ok "telemetry" telemetry_data ts b.

Definition add_command_result (io_ok : bool) (command_id : string) (result : JSON)
    (ts : string) (b : LocalBuffer) : LocalBuffer :=
  _add_item io_ok "command_result"
    (JObj [("command_id", JStr command_id); ("result", result)]) ts b.

Definition size (b : LocalBuffer) : Z := Z.of_nat (length (items b)).

Definition is_empty (b : LocalBuffer) : bool := size b =? 0.

Definition clear (io_ok : bool) (b : LocalBuffer) : Z * LocalBuffer :=
  let count := size b in
  let b1 := set_items [] b in
  (count, if persist_configured b1 then _save_to_disk io_ok b1 else b1).

(** One call of [_add_item], as data: a run of insertions is a list of
    these. *)
Record Insertion : Type := mkInsertion {
  ins_io_ok : bool;
  ins_type : string;
  ins_data : JSON;
  ins_timestamp : string
}.

Definition inserted_item (i : Insertion) : BufferedItem :=
  mkBufferedItem (ins_type i) (ins_data i) (ins_timestamp i) 0.

Definition insert_all (l : list Insertion) (b : LocalBuffer) : LocalBuffer :=
  foldl (fun acc i => _add_item (ins_io_ok i) (ins_type i) (ins_data i) (ins_timestamp i) acc)
    b l.

End Buffer.

(** ** buffer.py: flushing, counting and reloading *)

Module BufferFlush.

Import Buffer.

(** The slice [l[:n]]: the first [n] items, or all but the last [-n] when
    [n] is negative. *)
Definition slice_to {A : Type} (n : Z) (l : list A) : list A :=
  if 0 <=? n then take (Z.to_nat n) l
  else take (length l - Z.to_nat (- n)) l.

(** [get_pending_count]: the dictionary of counts. *)
Definition get_pending_count (b : LocalBuffer) : gmap string Z :=
  foldl (fun counts item =>
           <[item_type item := default 0 (counts !! item_type item) + 1]> counts)
    (<["total" := size b]> (<["command_result" := 0]> (<["telemetry" := 0]> ∅)))
    (items b).

(** [get_items_to_flush]; an [item_type] of [None] or of the empty string
    selects every item. *)
Definition get_items_to_flush (ty : option string) (b : LocalBuffer)
    : list BufferedItem :=
  let filtered :=
    match ty with
    | Some t =>
        if String.eqb t "" then items b
        else List.filter (fun i => String.eqb (item_type i) t) (items b)
    | None => items b
    end in
  slice_to (flush_batch_size b) filtered.

(** The pair [(i.item_type, i.timestamp)] items are matched by. *)
Definition item_key (i : BufferedItem) : string * string :=
  (item_type i, timestamp i).

Definition key_set (batch : list BufferedItem) : gset (string * string) :=
  list_to_set (item_key <$> batch).

Definition mark_flushed (io_ok : bool) (batch : list BufferedItem)
    (b : LocalBuffer) : LocalBuffer :=
  let flushed_set := key_set batch in
  let b1 :=
    set_items
      (List.filter (fun i => negb (bool_decide (item_key i ∈ flushed_set))) (items b))
      b in
  if persist_configured b1 then _save_to_disk io_ok b1 else b1.

Definition mark_failed (io_ok : bool) (batch : list BufferedItem)
    (b : LocalBuffer) : LocalBuffer :=
  let failed_set := key_set batch in
  let b1 :=
    set_items
      ((fun i =>
          if bool_decide (item_key i ∈ failed_set)
          then mkBufferedItem (item_type i) (data i) (timestamp i) (attempt_count i + 1)
          else i) <$> items b)
      b in
  if persist_configured b1 then _save_to_disk io_ok b1 else b1.

(** [_load_from_disk]; [readable] tells whether the file, when there is one,
    loads without an exception.  A file that does not load resets the buffer
    to empty. *)
Definition _load_from_disk (readable : bool) (b : LocalBuffer) : LocalBuffer :=
  if negb (persist_configured b) then b
  else
    match disk b with
    | None => b
    | Some saved => if readable then set_items saved b else set_items [] b
    end.

(** [LocalBuffer.__init__], in front of a file system in which the file at
    [persist_path] holds [on_disk]. *)
Definition LocalBuffer_init (max_items : Z) (persist_path : option string)
    (flush_batch_size : Z) (on_disk : option (list BufferedItem)) (readable : bool)
    : LocalBuffer :=
  let b := mkLocalBuffer max_items persist_path flush_batch_size [] on_disk in
  if persist_configured b then _load_from_disk readable b else b.

(** The operations that change a buffer, as data. *)
Inductive Mutation : Type :=
| do_add (ty : string) (d : JSON) (ts : string)
| do_mark_flushed (batch : list BufferedItem)
| do_mark_failed (batch : list BufferedItem)
| do_clear.

Definition apply_mutation (io_ok : bool) (op : Mutation) (b : LocalBuffer) : LocalBuffer :=
  match op with
  | do_add ty d ts => _add_item io_ok ty d ts b
  | do_mark_flushed batch => mark_flushed io_ok batch b
  | do_mark_failed batch => mark_failed io_ok batch b
  | do_clear => snd (clear io_ok b)
  end.

End BufferFlush.

(** ** Observations used by the properties *)

(** The datagrams the peering socket has sent so far. *)
Definition sent_frames (R : MeshRouter) : list (Frame * Addr) :=
  match _socket (peering R) with
  | Some s => sent s
  | None => []
  end.

(** How many times [sendto] was called on the peering socket. *)
Definition sendto_count (R : MeshRouter) : nat :=
  match _socket (peering R) with
  | Some s => sendto_calls s
  | None => 0%nat
  end.

(** The invariant of the data model on a route: the counters are counts,
    and [reliability] is the success ratio when an attempt was recorded and
    1.0 when none was. *)
Definition reliability_invariant (r : RoutePath) : Prop :=
  0 <= success_count r /\ 0 <= failure_count r /\
  (0 < success_count r + failure_count r ->
   (reliability r ==
    inject_Z (success_count r) / inject_Z (success_count r + failure_count r))%Q) /\
  (success_count r = 0 /\ failure_count r = 0 -> (reliability r == 1)%Q).

(** The invariant on every route object of a router. *)
Definition router_invariant (R : MeshRouter) : Prop :=
  forall p r, objects R !! p = Some r -> reliability_invariant r.

(** What can happen to a router between two observations: one of its
    methods runs, or the peering layer or the controller client change
    under it. *)
Inductive router_step : MeshRouter -> MeshRouter -> Prop :=
| step_discover_routes now request_id dest R :
    router_step R (snd (discover_routes now request_id dest R))
| step_handle_route_response now sender_id sender_addr request_id dest hops rtt R :
    router_step R
      (snd (handle_route_response now sender_id sender_addr request_id dest hops rtt R))
| step_relay_message now m max_retries R :
    router_step R (snd (relay_message now m max_retries R))
| step_handle_incoming_relay now parsed sender_addr R :
    router_step R (handle_incoming_relay now parsed sender_addr R)
| step_invalidate_route dest nh R :
    router_step R (invalidate_route dest nh R)
| step_cleanup_expired_routes now R :
    router_step R (snd (cleanup_expired_routes now R))
| step_peering p R :
    router_step R (set_peering p R)
| step_controller_client c R :
    router_step R (set_controller_client c R).

(** The routers that exist at run time: built by [MeshRouter.__init__] and
    then driven by steps. *)
Inductive reachable : MeshRouter -> Prop :=
| reachable_init nid p c ttl hops :
    reachable (MeshRouter_init nid p c ttl hops)
| reachable_step R R' :
    reachable R -> router_step R R' -> reachable R'.




(** The specification's reading of pending-request expiry: once a request
    is older than 10 seconds the sweeper has removed it, and a response that
    quotes it leaves the route table alone. *)
Definition stale_requests_swept_and_ignored : Prop :=
  forall (now t : datetime) (R : MeshRouter) (sender_id : string)
         (sender_addr : Addr) (request_id dest : string) (hops : Z) (rtt : Q),
    pending_requests R !! request_id = Some t ->
    timedelta 10 < now - t ->
    let R1 := snd (cleanup_expired_routes now R) in
    pending_requests R1 !! request_id = None /\
    route_table
      (snd (handle_route_response now sender_id sender_addr request_id dest hops rtt R1))
    = route_table R1.


(** Two routers whose route objects agree on the fields that never change
    after a route is created. *)
Definition same_static_fields (R R' : MeshRouter) : Prop :=
  forall q,
    target (deref R' q) = target (deref R q) /\
    next_hop (deref R' q) = next_hop (deref R q) /\
    next_hop_addr (deref R' q) = next_hop_addr (deref R q).





(** The number of routes the route table lists, over all destinations. *)
Definition total_routes (R : MeshRouter) : Z :=
  map_fold (fun _ l acc => acc + Z.of_nat (length l)) 0 (route_table R).

(** * Test fixtures

    The objects of [agent/tests/conftest.py], used to run the model on the
    scenarios of the test suite. *)

Module Fixtures.

(** The instant the fixtures call "now". *)
Definition t_now : datetime := timedelta 1000.

Definition mock_controller_client : ControllerClient :=
  mkControllerClient (Some t_now) None
    (fun _ _ _ _ _ => Return (Some (JArr [])))
    (fun _ _ _ _ => Return true).

(** A client whose calls fail: [heartbeat] returns [None]. *)
Definition failing_controller_client : ControllerClient :=
  mkControllerClient (Some t_now) None
    (fun _ _ _ _ _ => Return None)
    (fun _ _ _ _ => Raise ExternalError).

Definition mock_socket : Socket := mkSocket (fun _ => false) 0 [].

(** A socket on which every [sendto] raises. *)
Definition broken_socket : Socket := mkSocket (fun _ => true) 0 [].

Definition mock_peering : MeshPeering := mkMeshPeering ∅ (Some mock_socket).

Definition node_002 : PeerInfo :=
  mkPeerInfo "node-002" "192.168.1.102" 7777 REACHABLE (Some t_now) (Some 50%Q).

Definition mesh_router : MeshRouter :=
  MeshRouter_init "test-node-001" mock_peering mock_controller_client 60 5.

(** [router.route_table[dest] = routes], with fresh objects for the routes. *)
Definition install_routes (dest : string) (routes : list RoutePath)
    (R : MeshRouter) : MeshRouter :=
  let refs := seq 0 (length routes) in
  set_route_table (<[dest := refs]> (route_table R))
    (set_objects (list_to_map (zip refs routes)) R).

Definition sample_route_path : RoutePath :=
  new_RoutePath "controller" "node-002" ("192.168.1.102", 7777) 1 50 t_now.

Definition expired_route_path : RoutePath :=
  new_RoutePath "controller" "node-002" ("192.168.1.102", 7777) 1 50
    (t_now - timedelta 120).

Definition sample_relay_message : RelayMessage :=
  mkRelayMessage "test-msg-001" "heartbeat" "node-001" "controller" 0 5
    (JObj [("node_id", JStr "node-001"); ("cpu_usage", JNum 45);
           ("memory_usage", JNum 60); ("disk_usage", JNum 30)])
    ["node-001"] "2024-01-01T00:00:00".

(** A relay message addressed to the test router itself. *)
Definition message_for_self : RelayMessage :=
  mkRelayMessage "test-msg-002" "command" "node-001" "test-node-001" 1 5
    (JObj []) ["node-001"] "2024-01-01T00:00:00".

(** The test router with a controller client whose deliveries fail. *)
Definition router_failing_client : MeshRouter :=
  MeshRouter_init "test-node-001" mock_peering failing_controller_client 60 5.

(** A router configured with [route_cache_ttl = 10] that holds one route
    confirmed 30 seconds ago. *)
Definition router_ttl_10 : MeshRouter :=
  install_routes "controller"
    [new_RoutePath "controller" "node-002" ("192.168.1.102", 7777) 1 50
       (t_now - timedelta 30)]
    (MeshRouter_init "test-node-001" mock_peering mock_controller_client 10 5).

(** A message that has used up its hops. *)
Definition message_at_max_hops : RelayMessage :=
  mkRelayMessage "test-002" "heartbeat" "node-001" "controller" 5 5
    (JObj [("cpu", JNum 50)]) ["n1"; "n2"; "n3"; "n4"; "n5"] "2024-01-01T00:00:00".

(** [test_select_best_route_prefers_fewer_hops]: a 2-hop route at 50 ms
    listed before a 1-hop route at 100 ms. *)
Definition route_1hop : RoutePath :=
  new_RoutePath "controller" "node-002" ("192.168.1.102", 7777) 1 100 t_now.

Definition route_2hop_faster : RoutePath :=
  new_RoutePath "controller" "node-003" ("192.168.1.103", 7777) 2 50 t_now.

Definition router_hops_vs_rtt : MeshRouter :=
  install_routes "controller" [route_2hop_faster; route_1hop] mesh_router.

(** [test_select_best_route_uses_rtt_as_tiebreaker]: two 2-hop routes, the
    slow one listed first. *)
Definition route_fast : RoutePath :=
  new_RoutePath "controller" "node-002" ("192.168.1.102", 7777) 2 50 t_now.

Definition route_slow : RoutePath :=
  new_RoutePath "controller" "node-003" ("192.168.1.103", 7777) 2 150 t_now.

Definition router_rtt_tiebreak : MeshRouter :=
  install_routes "controller" [route_slow; route_fast] mesh_router.

(** The test router with [node-002] in its peer table, after a route
    discovery issued at [t_now] under the request id [abcd1234]. *)
Definition router_after_discovery : MeshRouter :=
  snd (discover_routes t_now "abcd1234" "controller"
         (MeshRouter_init "test-node-001"
            (mkMeshPeering {["node-002" := node_002]} (Some mock_socket))
            mock_controller_client 60 5)).



(** [LocalBuffer(max_items=n)], with no persist path. *)
Definition fresh_buffer (n : Z) : Buffer.LocalBuffer :=
  Buffer.mkLocalBuffer n None 50 [] None.

Definition three_insertions : list Buffer.Insertion :=
  [Buffer.mkInsertion true "telemetry" (JObj [("cpu", JNum 1)]) "t1";
   Buffer.mkInsertion true "command_result" (JObj [("command_id", JStr "c")]) "t2";
   Buffer.mkInsertion true "telemetry" (JObj [("cpu", JNum 3)]) "t3"].

(** [test_cleanup_expired_routes_removes_old_routes]: a fresh route listed
    before an expired one. *)
Definition router_mixed : MeshRouter :=
  install_routes "controller" [sample_route_path; expired_route_path] mesh_router.

(** [test_invalidate_route_removes_specific_next_hop]. *)
Definition router_two_hops : MeshRouter :=
  install_routes "controller"
    [new_RoutePath "controller" "node-002" ("192.168.1.102", 7777) 1 50 t_now;
     new_RoutePath "controller" "node-003" ("192.168.1.103", 7777) 2 100 t_now]
    mesh_router.

(** The test router with [node-002] in its peer table. *)
Definition router_with_peer : MeshRouter :=
  MeshRouter_init "test-node-001"
    (mkMeshPeering {["node-002" := node_002]} (Some mock_socket))
    mock_controller_client 60 5.

(** A second node, [node-002], that has spoken to the controller a moment
    ago. *)
Definition router_node_002 : MeshRouter :=
  MeshRouter_init "node-002" mock_peering mock_controller_client 60 5.


(** A buffer persisted at the path of the configuration example, before
    its first write. *)
Definition persistent_buffer (n : Z) : Buffer.LocalBuffer :=
  Buffer.mkLocalBuffer n (Some "/var/lib/tacticalmesh/buffer.json") 50 [] None.

End Fixtures.

(** * Properties *)

(** ** Basic facts about the object store *)

Lemma deref_mutate_same (f : RoutePath -> RoutePath) (p : Ref) (R : MeshRouter) :
  deref (mutate f p R) p = f (deref R p).
Proof. unfold deref, mutate. simpl. by rewrite lookup_total_insert_eq. Qed.

Lemma deref_mutate_other (f : RoutePath -> RoutePath) (p q : Ref) (R : MeshRouter) :
  p ≠ q -> deref (mutate f p R) q = deref R q.
Proof. intros Hne. unfold deref, mutate. simpl. by rewrite lookup_total_insert_ne. Qed.

Lemma objects_mutate_other (f : RoutePath -> RoutePath) (p q : Ref) (R : MeshRouter) :
  p ≠ q -> objects (mutate f p R) !! q = objects R !! q.
Proof. intros Hne. unfold mutate. simpl. by rewrite lookup_insert_ne. Qed.

(** ** RelayMessage.increment_hop and relay monotonicity *)

Lemma relay_message_true_inv (now : datetime) (m : RelayMessage) (max_retries : Z)
    (R : MeshRouter) (m' : RelayMessage) (R' : MeshRouter) :
  relay_message now m max_retries R = (true, m', R') ->
  increment_hop (node_id R) m = (true, m').
Proof.
  unfold relay_message.
  destruct (max_hops m <=? hop_count m); [intros [=]|].
  destruct (get_all_routes now (destination m) R); [intros [=]|].
  destruct (increment_hop (node_id R) m) as [ok m1] eqn:Hinc.
  destruct ok; simpl; [|intros [=]].
  destruct (relay_loop _ _ _ _ _ _ _) as [[] R2]; intros [=]; by subst.
Qed.

(** C7. [increment_hop n] adds exactly 1 to [hop_count] and appends [n] to
    [path_trace] whatever flag it returns, the flag is true exactly when the
    incremented count is at most [max_hops], and a [relay_message] that
    returns true leaves the message with [hop_count] one higher and the
    relaying node's id appended to [path_trace]. *)
Theorem increment_hop_relay_monotone (m : RelayMessage) (n : string) :
  hop_count (snd (increment_hop n m)) = hop_count m + 1 /\
  path_trace (snd (increment_hop n m)) = path_trace m ++ [n] /\
  (fst (increment_hop n m) = true <-> hop_count m + 1 <= max_hops m) /\
  (forall now max_retries R m' R',
     relay_message now m max_retries R = (true, m', R') ->
     hop_count m' = hop_count m + 1 /\
     path_trace m' = path_trace m ++ [node_id R]).
Proof.
  repeat split.
  - simpl. intros H. by apply Z.leb_le.
  - simpl. intros H. by apply Z.leb_le.
  - apply relay_message_true_inv in H. by inversion H.
  - apply relay_message_true_inv in H. by inversion H.
Qed.

Lemma increment_hop_relay_monotone_witness :
  hop_count
    (snd (fst (relay_message Fixtures.t_now Fixtures.sample_relay_message 2
                 (Fixtures.install_routes "controller" [Fixtures.sample_route_path]
                    Fixtures.mesh_router)))) = 1 /\
  path_trace
    (snd (fst (relay_message Fixtures.t_now Fixtures.sample_relay_message 2
                 (Fixtures.install_routes "controller" [Fixtures.sample_route_path]
                    Fixtures.mesh_router)))) = ["node-001"; "test-node-001"].
Proof.
  destruct (relay_message Fixtures.t_now Fixtures.sample_relay_message 2
              (Fixtures.install_routes "controller" [Fixtures.sample_route_path]
                 Fixtures.mesh_router)) as [[ok m'] R'] eqn:Hrun.
  assert (Hok : ok = true).
  { apply (f_equal (fun x => fst (fst x))) in Hrun. vm_compute in Hrun. by subst. }
  subst ok.
  exact (proj2 (proj2 (proj2
    (increment_hop_relay_monotone Fixtures.sample_relay_message "x")))
    _ _ _ _ _ Hrun).
Defined.

(** ** TTL enforcement in relay_message *)

(** C4. A message whose [hop_count] has reached [max_hops] is refused:
    [relay_message] returns false and adds one to [failed_relays]; the
    message, the socket (so no datagram is sent), the route table and the
    route objects are left as they were. *)
Theorem relay_message_ttl_exceeded (now : datetime) (m : RelayMessage)
    (max_retries : Z) (R : MeshRouter) :
  max_hops m <= hop_count m ->
  relay_message now m max_retries R = (false, m, incr_failed_relays R) /\
  failed_relays (metrics (incr_failed_relays R)) = failed_relays (metrics R) + 1 /\
  peering (incr_failed_relays R) = peering R /\
  route_table (incr_failed_relays R) = route_table R /\
  objects (incr_failed_relays R) = objects R /\
  relay_cache (incr_failed_relays R) = relay_cache R.
Proof.
  intros Httl. unfold relay_message.
  replace (max_hops m <=? hop_count m) with true by (symmetry; by apply Z.leb_le).
  repeat split.
Qed.

Lemma relay_message_ttl_exceeded_witness :
  relay_message Fixtures.t_now Fixtures.message_at_max_hops 2
    (Fixtures.install_routes "controller" [Fixtures.sample_route_path]
       Fixtures.mesh_router)
  = (false, Fixtures.message_at_max_hops,
     incr_failed_relays
       (Fixtures.install_routes "controller" [Fixtures.sample_route_path]
          Fixtures.mesh_router)).
Proof.
  apply (relay_message_ttl_exceeded Fixtures.t_now Fixtures.message_at_max_hops 2).
  simpl. lia.
Defined.

(** ** Responses from a sender that is not a peer *)

(** C10. A route response whose request id is pending but whose sender is
    not a key of the peer table raises [AttributeError] while the RTT of the
    new route is computed; the router, and so its route table, is exactly as
    before the call. *)
Theorem handle_route_response_unknown_sender (now : datetime) (sender_id : string)
    (sender_addr : Addr) (request_id dest : string) (hops : Z) (rtt : Q)
    (R : MeshRouter) :
  is_Some (pending_requests R !! request_id) ->
  peers (peering R) !! sender_id = None ->
  handle_route_response now sender_id sender_addr request_id dest hops rtt R
  = (Raise AttributeError, R).
Proof.
  intros [t Hpending] Hpeer. unfold handle_route_response.
  by rewrite Hpending, Hpeer.
Qed.

Lemma handle_route_response_unknown_sender_witness :
  handle_route_response Fixtures.t_now "node-009" ("192.168.1.109", 7777)
    "abcd1234" "controller" 0 10
    (snd (discover_routes Fixtures.t_now "abcd1234" "controller" Fixtures.mesh_router))
  = (Raise AttributeError,
     snd (discover_routes Fixtures.t_now "abcd1234" "controller" Fixtures.mesh_router)).
Proof.
  apply handle_route_response_unknown_sender.
  - exists Fixtures.t_now. vm_compute. reflexivity.
  - vm_compute. reflexivity.
Defined.

(** ** The buffer cap *)

Section BufferCap.

Import Buffer.

Variable N : nat.

Lemma _add_item_max_items (io_ok : bool) (ty : string) (d : JSON) (ts : string)
    (b : LocalBuffer) :
  max_items (_add_item io_ok ty d ts b) = max_items b.
Proof.
  unfold _add_item, _save_to_disk, set_items; simpl.
  repeat (case_match; simpl); reflexivity.
Qed.

Lemma _add_item_items (io_ok : bool) (ty : string) (d : JSON) (ts : string)
    (b : LocalBuffer) :
  max_items b = Z.of_nat N ->
  items (_add_item io_ok ty d ts b)
  = drop (length (items b) + 1 - N) (items b ++ [mkBufferedItem ty d ts 0]).
Proof.
  intros Hmax. unfold _add_item. simpl. rewrite Hmax, length_app. simpl.
  destruct (Z.ltb_spec (Z.of_nat N) (Z.of_nat (length (items b) + 1))) as [Hlt|Hge].
  - replace (Z.to_nat (Z.of_nat (length (items b) + 1) - Z.of_nat N))
      with (length (items b) + 1 - N)%nat by lia.
    unfold _save_to_disk; repeat (case_match; simpl); reflexivity.
  - replace (length (items b) + 1 - N)%nat with 0%nat by lia.
    unfold _save_to_disk; repeat (case_match; simpl); reflexivity.
Qed.

Lemma insert_all_items (l : list Insertion) :
  forall b : LocalBuffer,
    max_items b = Z.of_nat N ->
    l <> [] \/ (length (items b) <= N)%nat ->
    items (insert_all l b)
    = drop (length (items b) + length l - N) (items b ++ map inserted_item l).
Proof.
  induction l as [|i l IH]; intros b Hmax Hpre.
  - destruct Hpre as [Hne|Hle]; [done|]. simpl.
    rewrite app_nil_r.
    replace (length (items b) + 0 - N)%nat with 0%nat by lia. reflexivity.
  - change (insert_all (i :: l) b)
      with (insert_all l (_add_item (ins_io_ok i) (ins_type i) (ins_data i)
                            (ins_timestamp i) b)).
    pose proof (_add_item_items (ins_io_ok i) (ins_type i) (ins_data i)
                  (ins_timestamp i) b Hmax) as Hitems.
    pose proof (_add_item_max_items (ins_io_ok i) (ins_type i) (ins_data i)
                  (ins_timestamp i) b) as Hmax'.
    set (b1 := _add_item _ _ _ _ b) in *.
    assert (Hlen : length (items b1)
                   = (length (items b) + 1 - (length (items b) + 1 - N))%nat).
    { rewrite Hitems, length_drop, length_app. simpl. lia. }
    rewrite IH; [|congruence|right; lia].
    rewrite Hlen, Hitems. simpl.
    change (mkBufferedItem (ins_type i) (ins_data i) (ins_timestamp i) 0)
      with (inserted_item i).
    rewrite <- drop_app_le by (rewrite length_app; simpl; lia).
    rewrite drop_drop, <- app_assoc. simpl.
    f_equal. lia.
Qed.

End BufferCap.

(** C9. In a buffer with [max_items = N], after a run of [N + k] insertions
    the buffer holds exactly [N] items: the run without its [k] oldest
    insertions, in insertion order.  The buffer may start from any content
    within its cap (the empty buffer of a fresh [LocalBuffer] above all), or
    from any content at all when the run is not empty. *)
Theorem buffer_cap (N k : nat) (b : Buffer.LocalBuffer) (l : list Buffer.Insertion) :
  Buffer.max_items b = Z.of_nat N ->
  length l = (N + k)%nat ->
  (length (Buffer.items b) <= N)%nat \/ (0 < N + k)%nat ->
  Buffer.items (Buffer.insert_all l b) = drop k (map Buffer.inserted_item l) /\
  Buffer.size (Buffer.insert_all l b) = Z.of_nat N.
Proof.
  intros Hmax Hlen Hpre.
  assert (Hitems : Buffer.items (Buffer.insert_all l b)
                   = drop k (map Buffer.inserted_item l)).
  { rewrite (insert_all_items N l b Hmax).
    - rewrite Hlen.
      replace (length (Buffer.items b) + (N + k) - N)%nat
        with (length (Buffer.items b) + k)%nat by lia.
      by rewrite drop_app_add.
    - destruct Hpre as [Hle|Hpos]; [by right|].
      left. intros ->. simpl in Hlen. lia. }
  split; [exact Hitems|].
  unfold Buffer.size. rewrite Hitems, length_drop, length_map. lia.
Qed.

Lemma buffer_cap_witness :
  Buffer.items (Buffer.insert_all Fixtures.three_insertions (Fixtures.fresh_buffer 2))
  = [Buffer.mkBufferedItem "command_result" (JObj [("command_id", JStr "c")]) "t2" 0;
     Buffer.mkBufferedItem "telemetry" (JObj [("cpu", JNum 3)]) "t3" 0] /\
  Buffer.size (Buffer.insert_all Fixtures.three_insertions (Fixtures.fresh_buffer 2)) = 2.
Proof.
  apply (buffer_cap 2 1 (Fixtures.fresh_buffer 2) Fixtures.three_insertions).
  - reflexivity.
  - reflexivity.
  - left. simpl. lia.
Defined.

(** ** Route expiry and the configured TTL *)

(** Selection reads the route table and the route objects only; the
    configured [route_cache_ttl] plays no part in it. *)
Lemma select_best_route_reads_routes_only (now : datetime) (dest : string)
    (R R' : MeshRouter) :
  objects R = objects R' -> route_table R = route_table R' ->
  select_best_route now dest R = select_best_route now dest R' /\
  has_route_to now dest R = has_route_to now dest R'.
Proof.
  intros Hobj Htab. unfold select_best_route, has_route_to, valid_routes, deref.
  by rewrite Hobj, Htab.
Qed.

(** C1, on the code.  With [route_cache_ttl = 10] and one route confirmed 30
    seconds ago, the age of the route exceeds the configured TTL, and yet
    [select_best_route] returns that route and [has_route_to] counts it:
    expiry compares the age with the literal 60 seconds. *)
Theorem expiry_uses_literal_60_seconds :
  route_cache_ttl Fixtures.router_ttl_10 = 10 /\
  timedelta (route_cache_ttl Fixtures.router_ttl_10)
    < Fixtures.t_now - last_updated (deref Fixtures.router_ttl_10 0%nat) /\
  select_best_route Fixtures.t_now "controller" Fixtures.router_ttl_10 = Some 0%nat /\
  has_route_to Fixtures.t_now "controller" Fixtures.router_ttl_10 = true.
Proof. repeat split. Qed.

(** ** Acknowledgement of relayed messages *)

Lemma _send_relay_ack_sends_nothing (mid origin : string) (success : bool)
    (R : MeshRouter) :
  _send_relay_ack mid origin success R = R.
Proof. reflexivity. Qed.

(** C2, on the code.  A RELAY_DATA message addressed to this node, a
    controller-destined message whose delivery to the controller fails, and
    one whose delivery succeeds are each handled without a single call of
    [sendto]: no RELAY_ACK datagram, nor any other, leaves the socket. *)
Theorem relay_ack_is_not_emitted :
  let addr : Addr := ("192.168.1.102", 7777) in
  let for_self :=
    handle_incoming_relay Fixtures.t_now (Some Fixtures.message_for_self) addr
      Fixtures.mesh_router in
  let failed_delivery :=
    handle_incoming_relay Fixtures.t_now (Some Fixtures.sample_relay_message) addr
      Fixtures.router_failing_client in
  let delivered :=
    handle_incoming_relay Fixtures.t_now (Some Fixtures.sample_relay_message) addr
      Fixtures.mesh_router in
  (sent_frames for_self = [] /\ sendto_count for_self = 0%nat) /\
  (deliver_to_controller Fixtures.sample_relay_message
     (controller_client Fixtures.router_failing_client) = false /\
   failed_relays (metrics failed_delivery) = 0 /\
   sent_frames failed_delivery = [] /\ sendto_count failed_delivery = 0%nat) /\
  (deliver_to_controller Fixtures.sample_relay_message
     (controller_client Fixtures.mesh_router) = true /\
   successful_deliveries (metrics delivered) = 1 /\
   sent_frames delivered = [] /\ sendto_count delivered = 0%nat).
Proof. vm_compute. repeat split. Qed.

(** ** The reliability invariant *)

Lemma reliability_invariant_new (tgt nh : string) (addr : Addr) (hops : Z)
    (rtt : Q) (t : datetime) :
  reliability_invariant (new_RoutePath tgt nh addr hops rtt t).
Proof.
  unfold reliability_invariant, new_RoutePath; simpl.
  repeat split; try lia; intros; reflexivity.
Qed.

Lemma reliability_invariant_record_success (now : datetime) (r : RoutePath) :
  reliability_invariant r -> reliability_invariant (record_success now r).
Proof.
  intros (Hs & Hf & _ & _).
  unfold reliability_invariant, record_success, _update_reliability; simpl.
  destruct (Z.ltb_spec 0 (success_count r + 1 + failure_count r)) as [Hpos|Hneg];
    [|lia].
  simpl. repeat split; try lia.
  intros _. unfold truediv. apply Qred_correct.
Qed.

Lemma reliability_invariant_record_failure (r : RoutePath) :
  reliability_invariant r -> reliability_invariant (record_failure r).
Proof.
  intros (Hs & Hf & _ & _).
  unfold reliability_invariant, record_failure, _update_reliability; simpl.
  destruct (Z.ltb_spec 0 (success_count r + (failure_count r + 1))) as [Hpos|Hneg];
    [|lia].
  simpl. repeat split; try lia.
  intros _. unfold truediv. apply Qred_correct.
Qed.

Lemma reliability_invariant_deref (R : MeshRouter) (p : Ref) :
  router_invariant R -> reliability_invariant (deref R p).
Proof.
  intros Hinv. unfold deref. rewrite lookup_total_alt.
  destruct (objects R !! p) as [r|] eqn:Hp; simpl.
  - by apply (Hinv p).
  - apply reliability_invariant_new.
Qed.

Lemma router_invariant_mutate (f : RoutePath -> RoutePath) (p : Ref) (R : MeshRouter) :
  (forall r, reliability_invariant r -> reliability_invariant (f r)) ->
  router_invariant R -> router_invariant (mutate f p R).
Proof.
  intros Hf Hinv q r. unfold mutate; simpl.
  destruct (decide (p = q)) as [->|Hne].
  - rewrite lookup_insert_eq. intros [= <-].
    by apply Hf, reliability_invariant_deref.
  - rewrite lookup_insert_ne by done. apply Hinv.
Qed.

Lemma router_invariant_same_objects (R R' : MeshRouter) :
  objects R' = objects R -> router_invariant R -> router_invariant R'.
Proof. unfold router_invariant. by intros ->. Qed.

Lemma objects__send_to_peer (data : Frame) (addr : Addr) (R : MeshRouter) :
  objects (snd (_send_to_peer data addr R)) = objects R.
Proof. unfold _send_to_peer. by repeat case_match. Qed.

Lemma objects__update_avg_hop_count (R : MeshRouter) :
  objects (_update_avg_hop_count R) = objects R.
Proof. unfold _update_avg_hop_count. by repeat case_match. Qed.

Lemma router_invariant_handle_route_response (now : datetime) (sender_id : string)
    (sender_addr : Addr) (request_id dest : string) (hops : Z) (rtt : Q)
    (R : MeshRouter) :
  router_invariant R ->
  router_invariant
    (snd (handle_route_response now sender_id sender_addr request_id dest hops rtt R)).
Proof.
  intros Hinv. unfold handle_route_response.
  destruct (pending_requests R !! request_id); [|done].
  destruct (peers (peering R) !! sender_id); [|done].
  destruct (List.filter _ _) as [|existing rest]; simpl.
  - unfold router_invariant; simpl. intros q r. rewrite lookup_insert.
    case_decide; [intros [= <-]; apply reliability_invariant_new|apply Hinv].
  - apply router_invariant_mutate; [|exact Hinv].
    intros r Hr. exact Hr.
Qed.

Lemma router_invariant_relay_loop (now : datetime) (m : RelayMessage) (max_retries : Z)
    (l : list Ref) :
  forall (attempts : Z) (tried : gset string) (R : MeshRouter),
    router_invariant R ->
    router_invariant (snd (relay_loop now m max_retries l attempts tried R)).
Proof.
  induction l as [|p l IH]; intros attempts tried R Hinv; simpl; [done|].
  destruct (max_retries + 1 <=? attempts); [done|].
  case_bool_decide; [by apply IH|].
  pose proof (objects__send_to_peer (MSG_RELAY_DATA m)
                (next_hop_addr (deref R p)) R) as Hobj.
  destruct (_send_to_peer _ _ R) as [[u|e] R1]; simpl in Hobj.
  - simpl. eapply router_invariant_same_objects;
      [apply objects__update_avg_hop_count|].
    simpl.
    eapply (router_invariant_same_objects (mutate (record_success now) p R1));
      [reflexivity|].
    apply router_invariant_mutate;
      [intros r; apply reliability_invariant_record_success|].
    by eapply router_invariant_same_objects.
  - apply IH. apply router_invariant_mutate;
      [intros r; apply reliability_invariant_record_failure|].
    by eapply router_invariant_same_objects.
Qed.

Lemma router_invariant_relay_message (now : datetime) (m : RelayMessage)
    (max_retries : Z) (R : MeshRouter) :
  router_invariant R ->
  router_invariant (snd (relay_message now m max_retries R)).
Proof.
  intros Hinv. unfold relay_message.
  destruct (max_hops m <=? hop_count m); [done|].
  destruct (get_all_routes now (destination m) R); [done|].
  destruct (increment_hop (node_id R) m) as [ok m1].
  destruct ok; simpl; [|done].
  pose proof (router_invariant_relay_loop now m1 max_retries
                (viable_routes now (destination m) R) 0 ∅
                (set_relay_cache (<[message_id m1 := m1]> (relay_cache R)) R) Hinv)
    as Hloop.
  destruct (relay_loop _ _ _ _ _ _ _) as [[] R2]; simpl in *; done.
Qed.

Lemma router_invariant__forward_to_controller (now : datetime) (m : RelayMessage)
    (sender_addr : Addr) (R : MeshRouter) :
  router_invariant R ->
  router_invariant (snd (_forward_to_controller now m sender_addr R)).
Proof.
  intros Hinv. unfold _forward_to_controller, _send_relay_ack; simpl.
  destruct (deliver_to_controller m (controller_client R)); [|done].
  assert (Hstart : router_invariant (incr_successful_deliveries R)) by exact Hinv.
  revert Hstart. generalize (incr_successful_deliveries R).
  induction (all_route_refs R) as [|p l IH]; intros acc Hacc; simpl; [done|].
  apply IH. case_match; [|done].
  apply router_invariant_mutate; [|done].
  intros r. apply reliability_invariant_record_success.
Qed.

Lemma router_invariant_handle_incoming_relay (now : datetime)
    (parsed : option RelayMessage) (sender_addr : Addr) (R : MeshRouter) :
  router_invariant R ->
  router_invariant (handle_incoming_relay now parsed sender_addr R).
Proof.
  intros Hinv. unfold handle_incoming_relay.
  destruct parsed as [m|]; [|done].
  repeat case_match; try done.
  - by apply router_invariant__forward_to_controller.
  - by apply router_invariant_relay_message.
Qed.

Lemma objects_broadcast (message : Frame) (l : list PeerInfo) :
  forall R : MeshRouter,
    objects (foldl (fun acc peer =>
                      snd (_send_to_peer message (address peer, port peer) acc)) R l)
    = objects R.
Proof.
  induction l as [|peer l IH]; intros R; simpl; [done|].
  rewrite IH. apply objects__send_to_peer.
Qed.

Lemma objects_discover_routes (now : datetime) (request_id dest : string)
    (R : MeshRouter) :
  objects (snd (discover_routes now request_id dest R)) = objects R.
Proof. unfold discover_routes. cbn [snd]. by rewrite objects_broadcast. Qed.

Lemma router_step_invariant (R R' : MeshRouter) :
  router_step R R' -> router_invariant R -> router_invariant R'.
Proof.
  intros Hstep Hinv. destruct Hstep.
  - eapply router_invariant_same_objects; [apply objects_discover_routes|done].
  - by apply router_invariant_handle_route_response.
  - by apply router_invariant_relay_message.
  - by apply router_invariant_handle_incoming_relay.
  - unfold invalidate_route. by case_match.
  - exact Hinv.
  - exact Hinv.
  - exact Hinv.
Qed.

Lemma reachable_router_invariant (R : MeshRouter) :
  reachable R -> router_invariant R.
Proof.
  induction 1 as [nid p c ttl hops|R R' _ IH Hstep].
  - intros q r. unfold MeshRouter_init; simpl. by rewrite lookup_empty.
  - by eapply router_step_invariant.
Qed.

(** C8. The invariant [reliability = success_count / (success_count +
    failure_count)] when an attempt was recorded, and [reliability = 1.0]
    when both counters are zero, holds for a fresh route, is preserved by
    [record_success] and by [record_failure], is preserved on every route
    object by the insert-or-update of [handle_route_response], and so holds
    for every route object of every router the code can reach. *)
Theorem reliability_invariant_maintained :
  (forall tgt nh addr hops rtt t,
     reliability_invariant (new_RoutePath tgt nh addr hops rtt t)) /\
  (forall now r,
     reliability_invariant r -> reliability_invariant (record_success now r)) /\
  (forall r,
     reliability_invariant r -> reliability_invariant (record_failure r)) /\
  (forall now sender_id sender_addr request_id dest hops rtt R,
     router_invariant R ->
     router_invariant
       (snd (handle_route_response now sender_id sender_addr request_id dest
               hops rtt R))) /\
  (forall R, reachable R -> router_invariant R).
Proof.
  split; [exact reliability_invariant_new|].
  split; [exact reliability_invariant_record_success|].
  split; [exact reliability_invariant_record_failure|].
  split; [exact router_invariant_handle_route_response|].
  exact reachable_router_invariant.
Qed.

Lemma reliability_invariant_maintained_witness :
  reliability_invariant
    (record_failure (record_success Fixtures.t_now Fixtures.sample_route_path)).
Proof.
  apply (proj1 (proj2 (proj2 reliability_invariant_maintained))).
  apply (proj1 (proj2 reliability_invariant_maintained)).
  unfold reliability_invariant; simpl. repeat split; lia.
Defined.

(** ** The order on routes and the sort *)

Lemma Qltb_spec (a b : Q) : Qltb a b = true <-> (a < b)%Q.
Proof.
  unfold Qltb. rewrite Qlt_alt. destruct (a ?= b)%Q; split; congruence.
Qed.









Section Sort.

Context {A : Type} (key : A -> Z * Q * Q).

Lemma insert_sorted_perm (x : A) (l : list A) : insert_sorted key x l ≡ₚ x :: l.
Proof.
  induction l as [|y l IH]; simpl; [done|].
  destruct (key_ltb (key y) (key x)); [|done].
  rewrite IH. apply Permutation_swap.
Qed.

Lemma list_sort_perm (l : list A) : list_sort key l ≡ₚ l.
Proof.
  induction l as [|x l IH]; simpl; [done|].
  rewrite insert_sorted_perm. by rewrite IH.
Qed.




End Sort.

(** ** Route selection *)

Lemma select_best_route_eq (now : datetime) (dest : string) (R : MeshRouter) :
  select_best_route now dest R
  = head (list_sort (fun p => sort_key (deref R p))
            (valid_routes now R (default [] (route_table R !! dest)))).
Proof.
  unfold select_best_route. destruct (route_table R !! dest) as [l|]; simpl; [|done].
  by destruct (valid_routes now R l).
Qed.

Lemma valid_routes_not_expired (now : datetime) (R : MeshRouter) (l : list Ref)
    (p : Ref) :
  p ∈ valid_routes now R l <-> p ∈ l /\ is_expired now (deref R p) = false.
Proof.
  unfold valid_routes. rewrite !list_elem_of_In, filter_In.
  by rewrite negb_true_iff.
Qed.



(** Seed scenario "tie-break by RTT": of two 2-hop routes at 150 ms and
    50 ms, the 50 ms route (listed second) is selected. *)
Example select_best_route_rtt_tiebreak :
  select_best_route Fixtures.t_now "controller" Fixtures.router_rtt_tiebreak
  = Some 1%nat /\
  deref Fixtures.router_rtt_tiebreak 1%nat = Fixtures.route_fast.
Proof. split; vm_compute; reflexivity. Qed.

(** ** Pending requests *)

Lemma pending_requests_cleanup_expired_routes (now : datetime) (R : MeshRouter) :
  pending_requests (snd (cleanup_expired_routes now R)) = pending_requests R.
Proof. reflexivity. Qed.

(** C3 as the specification states it fails: 30 seconds after a discovery,
    and after a run of the sweeper, the request is still pending and a
    response that quotes it inserts a route. *)
Lemma stale_response_is_accepted : ~ stale_requests_swept_and_ignored.
Proof.
  intros Hclaim.
  destruct (Hclaim (Fixtures.t_now + timedelta 30) Fixtures.t_now
              Fixtures.router_after_discovery "node-002" ("192.168.1.102", 7777)
              "abcd1234" "controller" 0 10%Q) as [_ Htable].
  - vm_compute. reflexivity.
  - vm_compute. reflexivity.
  - apply (f_equal (fun t : gmap string (list Ref) => t !! "controller")) in Htable.
    vm_compute in Htable. discriminate Htable.
Qed.

Lemma stale_response_inserts_route :
  let R1 := snd (cleanup_expired_routes (Fixtures.t_now + timedelta 30)
                   Fixtures.router_after_discovery) in
  let R2 := snd (handle_route_response (Fixtures.t_now + timedelta 30) "node-002"
                   ("192.168.1.102", 7777) "abcd1234" "controller" 0 10 R1) in
  route_table R1 !! "controller" = None /\
  route_table R2 !! "controller" = Some [0%nat] /\
  next_hop (deref R2 0%nat) = "node-002" /\
  select_best_route (Fixtures.t_now + timedelta 30) "controller" R2 = Some 0%nat.
Proof. vm_compute. repeat split. Qed.

(** C3, amended.  Nothing removes a pending request: the sweeper
    [cleanup_expired_routes] leaves [pending_requests] as it is, and so does
    [handle_route_response].  A response whose request id is not pending is
    ignored and changes nothing.  A response whose request id is pending is
    accepted whatever the age of the request, provided its sender is in the
    peer table: afterwards the list of the destination holds a route through
    the sender with [hops + 1] hops, confirmed at the time of the call. *)
Theorem pending_requests_never_expire (now : datetime) (R : MeshRouter)
    (sender_id : string) (sender_addr : Addr) (request_id dest : string)
    (hops : Z) (rtt : Q) :
  let R' := snd (handle_route_response now sender_id sender_addr request_id dest
                   hops rtt R) in
  pending_requests (snd (cleanup_expired_routes now R)) = pending_requests R /\
  pending_requests R' = pending_requests R /\
  (pending_requests R !! request_id = None ->
   handle_route_response now sender_id sender_addr request_id dest hops rtt R
   = (Return tt, R)) /\
  (forall peer,
     is_Some (pending_requests R !! request_id) ->
     peers (peering R) !! sender_id = Some peer ->
     fst (handle_route_response now sender_id sender_addr request_id dest hops rtt R)
     = Return tt /\
     exists p l,
       route_table R' !! dest = Some l /\ p ∈ l /\
       next_hop (deref R' p) = sender_id /\
       total_hops (deref R' p) = hops + 1 /\
       estimated_rtt_ms (deref R' p) = (rtt + float_or (rtt_ms peer) 20)%Q /\
       last_updated (deref R' p) = now).
Proof.
  intros R'. split; [reflexivity|]. split; [|split].
  - subst R'. unfold handle_route_response.
    repeat case_match; reflexivity.
  - intros Hnone. unfold handle_route_response. by rewrite Hnone.
  - intros peer [t Hpending] Hpeer. subst R'. unfold handle_route_response.
    rewrite Hpending, Hpeer.
    set (routes := default [] (route_table R !! dest)).
    set (R1 := set_route_table (<[dest:=routes]> (route_table R)) R).
    destruct (List.filter _ routes) as [|existing rest] eqn:Hfilter.
    + split; [reflexivity|].
      exists (fresh (dom (objects R1))), (routes ++ [fresh (dom (objects R1))]).
      cbn [snd]. unfold deref; simpl. rewrite lookup_insert_eq.
      rewrite lookup_total_insert_eq. simpl.
      repeat split. set_solver.
    + split; [reflexivity|].
      assert (Hin : In existing (List.filter
                (fun p => String.eqb (next_hop (deref R1 p)) sender_id) routes))
        by (rewrite Hfilter; by left).
      apply filter_In in Hin as [Hin Hnh].
      apply String.eqb_eq in Hnh.
      exists existing, routes. cbn [snd].
      rewrite deref_mutate_same. simpl.
      split; [apply lookup_insert_eq|].
      split; [by apply list_elem_of_In|].
      repeat split. exact Hnh.
Qed.

Lemma pending_requests_never_expire_witness :
  exists p l,
    route_table
      (snd (handle_route_response (Fixtures.t_now + timedelta 30) "node-002"
              ("192.168.1.102", 7777) "abcd1234" "controller" 0 10
              Fixtures.router_after_discovery)) !! "controller" = Some l /\
    p ∈ l /\
    next_hop
      (deref
         (snd (handle_route_response (Fixtures.t_now + timedelta 30) "node-002"
                 ("192.168.1.102", 7777) "abcd1234" "controller" 0 10
                 Fixtures.router_after_discovery)) p) = "node-002".
Proof.
  destruct (proj2 (proj2 (proj2
    (pending_requests_never_expire (Fixtures.t_now + timedelta 30)
       Fixtures.router_after_discovery "node-002" ("192.168.1.102", 7777)
       "abcd1234" "controller" 0 10))) Fixtures.node_002)
    as [_ (p & l & Hl & Hp & Hnh & _)].
  - exists Fixtures.t_now. vm_compute. reflexivity.
  - vm_compute. reflexivity.
  - exists p, l. repeat split; assumption.
Defined.

(** ** The circuit breaker of relay_message *)


Lemma peering__update_avg_hop_count (R : MeshRouter) :
  peering (_update_avg_hop_count R) = peering R.
Proof. unfold _update_avg_hop_count. by repeat case_match. Qed.







(** A route fails the circuit-breaker filter exactly when its reliability is
    below 0.2 and it has at least three recorded failures. *)
Lemma is_viable_false (r : RoutePath) :
  is_viable r = false <-> (reliability r < 2 # 10)%Q /\ 3 <= failure_count r.
Proof.
  unfold is_viable. rewrite orb_false_iff, Z.ltb_ge.
  assert (Hq : Qle_bool (2 # 10) (reliability r) = false
               <-> (reliability r < 2 # 10)%Q).
  { destruct (Qle_bool (2 # 10) (reliability r)) eqn:Hle.
    - apply Qle_bool_iff in Hle. split; [done|]. intros Hlt. lra.
    - split; [|done]. intros _. apply Qnot_le_lt. intros Hge.
      apply Qle_bool_iff in Hge. congruence. }
  by rewrite Hq.
Qed.

Lemma viable_routes_nonempty (now : datetime) (dest : string) (R : MeshRouter)
    (p : Ref) (rest : list Ref) :
  viable_routes now dest R = p :: rest -> get_all_routes now dest R <> [].
Proof.
  intros Hv Hall. unfold viable_routes, sorted_routes in Hv.
  rewrite Hall in Hv. simpl in Hv. discriminate Hv.
Qed.





(** * Further properties of the code *)

(** ** What a relay does to the router *)

Lemma record_success_static (now : datetime) (r : RoutePath) :
  target (record_success now r) = target r /\
  next_hop (record_success now r) = next_hop r /\
  next_hop_addr (record_success now r) = next_hop_addr r /\
  total_hops (record_success now r) = total_hops r /\
  estimated_rtt_ms (record_success now r) = estimated_rtt_ms r.
Proof. unfold record_success, _update_reliability; simpl. by case_match. Qed.

Lemma record_failure_static (r : RoutePath) :
  target (record_failure r) = target r /\
  next_hop (record_failure r) = next_hop r /\
  next_hop_addr (record_failure r) = next_hop_addr r /\
  total_hops (record_failure r) = total_hops r /\
  estimated_rtt_ms (record_failure r) = estimated_rtt_ms r /\
  last_updated (record_failure r) = last_updated r.
Proof. unfold record_failure, _update_reliability; simpl. by case_match. Qed.

Lemma same_static_fields_refl (R : MeshRouter) : same_static_fields R R.
Proof. by intros q. Qed.

Lemma same_static_fields_trans (R1 R2 R3 : MeshRouter) :
  same_static_fields R1 R2 -> same_static_fields R2 R3 -> same_static_fields R1 R3.
Proof.
  intros H12 H23 q. destruct (H12 q) as (? & ? & ?), (H23 q) as (? & ? & ?).
  repeat split; congruence.
Qed.


Lemma same_static_fields_mutate (f : RoutePath -> RoutePath) (p : Ref) (R : MeshRouter) :
  (forall r, target (f r) = target r /\ next_hop (f r) = next_hop r /\
             next_hop_addr (f r) = next_hop_addr r) ->
  same_static_fields R (mutate f p R).
Proof.
  intros Hf q. destruct (decide (p = q)) as [->|Hne].
  - rewrite deref_mutate_same. apply Hf.
  - by rewrite deref_mutate_other.
Qed.


(** The fields of the router a relay loop never writes. *)
Lemma relay_loop_frame (now : datetime) (m : RelayMessage) (max_retries : Z)
    (l : list Ref) :
  forall (attempts : Z) (tried : gset string) (R : MeshRouter),
    let R' := snd (relay_loop now m max_retries l attempts tried R) in
    route_table R' = route_table R /\
    relay_cache R' = relay_cache R /\
    pending_requests R' = pending_requests R /\
    node_id R' = node_id R /\
    peers (peering R') = peers (peering R) /\
    failed_relays (metrics R') = failed_relays (metrics R).
Proof.
  induction l as [|p l IH]; intros attempts tried R; simpl; [done|].
  destruct (max_retries + 1 <=? attempts); [done|].
  case_bool_decide; [apply IH|].
  unfold _send_to_peer.
  destruct (_socket (peering R)) as [s|];
    [destruct (sendto_raises s (sendto_calls s))|].
  - destruct (IH (attempts + 1)
                ({[next_hop (deref R p)]} ∪ tried)
                (mutate record_failure p
                   (set_peering
                      (mkMeshPeering (peers (peering R))
                         (Some (mkSocket (sendto_raises s) (S (sendto_calls s)) (sent s))))
                      R))) as (? & ? & ? & ? & ? & ?).
    done.
  - cbn [snd]. unfold _update_avg_hop_count. simpl.
    repeat case_match; done.
  - destruct (IH (attempts + 1) ({[next_hop (deref R p)]} ∪ tried)
                (mutate record_failure p R)) as (? & ? & ? & ? & ? & ?).
    done.
Qed.

(** How a relay loop ends: through [return True] after exactly one datagram
    went out, to the address of one of the routes it walked, or by running
    out of routes or attempts with nothing sent. *)
Lemma relay_loop_outcome (now : datetime) (m : RelayMessage) (max_retries : Z)
    (l : list Ref) :
  forall (attempts : Z) (tried : gset string) (R : MeshRouter),
    let res := relay_loop now m max_retries l attempts tried R in
    if fst res then
      (exists p, p ∈ l /\
         sent_frames (snd res)
         = sent_frames R ++ [(MSG_RELAY_DATA m, next_hop_addr (deref R p))]) /\
      messages_relayed (metrics (snd res)) = messages_relayed (metrics R) + 1
    else
      sent_frames (snd res) = sent_frames R /\
      metrics (snd res) = metrics R /\
      _hop_counts (snd res) = _hop_counts R.
Proof.
  induction l as [|p l IH]; intros attempts tried R; simpl; [done|].
  destruct (max_retries + 1 <=? attempts); [done|].
  case_bool_decide.
  { specialize (IH attempts tried R). simpl in IH.
    destruct (fst (relay_loop now m max_retries l attempts tried R)); [|done].
    destruct IH as [(q & Hq & Hsent) Hm]. split; [|done].
    exists q. split; [set_solver|done]. }
  unfold _send_to_peer.
  destruct (_socket (peering R)) as [s|] eqn:Hs;
    [destruct (sendto_raises s (sendto_calls s))|].
  - match goal with
    | |- context [relay_loop now m max_retries l ?a ?t ?R1] =>
        specialize (IH a t R1); set (R1' := R1) in *
    end.
    simpl in IH.
    assert (Hsent1 : sent_frames R1' = sent_frames R)
      by (unfold sent_frames; subst R1'; simpl; by rewrite Hs).
    assert (Haddr : forall q, next_hop_addr (deref R1' q) = next_hop_addr (deref R q)).
    { intros q. subst R1'.
      destruct (same_static_fields_mutate record_failure p
                  (set_peering
                     (mkMeshPeering (peers (peering R))
                        (Some (mkSocket (sendto_raises s) (S (sendto_calls s)) (sent s))))
                     R)
                  (fun r => let H := record_failure_static r in
                            conj (proj1 H) (conj (proj1 (proj2 H))
                                                 (proj1 (proj2 (proj2 H))))) q)
        as (_ & _ & Ha).
      exact Ha. }
    destruct (fst (relay_loop now m max_retries l _ _ R1')).
    + destruct IH as [(q & Hq & Hsent) Hm]. split.
      * exists q. split; [set_solver|]. by rewrite Hsent, Hsent1, Haddr.
      * rewrite Hm. by subst R1'.
    + destruct IH as (Hsent & Hm & Hh). rewrite Hsent, Hm, Hh. by subst R1'.
  - cbn [fst snd]. split.
    + exists p. split; [set_solver|].
      unfold sent_frames. rewrite peering__update_avg_hop_count. simpl.
      by rewrite Hs.
    + unfold _update_avg_hop_count. simpl. repeat case_match; done.
  - match goal with
    | |- context [relay_loop now m max_retries l ?a ?t ?R1] =>
        specialize (IH a t R1); set (R1' := R1) in *
    end.
    simpl in IH.
    assert (Hsent1 : sent_frames R1' = sent_frames R) by done.
    assert (Haddr : forall q, next_hop_addr (deref R1' q) = next_hop_addr (deref R q)).
    { intros q. subst R1'.
      destruct (same_static_fields_mutate record_failure p R
                  (fun r => let H := record_failure_static r in
                            conj (proj1 H) (conj (proj1 (proj2 H))
                                                 (proj1 (proj2 (proj2 H))))) q)
        as (_ & _ & Ha).
      exact Ha. }
    destruct (fst (relay_loop now m max_retries l _ _ R1')).
    + destruct IH as [(q & Hq & Hsent) Hm]. split.
      * exists q. split; [set_solver|]. by rewrite Hsent, Hsent1, Haddr.
      * rewrite Hm. by subst R1'.
    + destruct IH as (Hsent & Hm & Hh). rewrite Hsent, Hm, Hh. by subst R1'.
Qed.

Lemma relay_loop_attempts (now : datetime) (m : RelayMessage) (max_retries : Z)
    (l : list Ref) :
  forall (attempts : Z) (tried : gset string) (R : MeshRouter),
    (sendto_count (snd (relay_loop now m max_retries l attempts tried R))
     <= sendto_count R + Z.to_nat (max_retries + 1 - attempts))%nat /\
    (sendto_count (snd (relay_loop now m max_retries l attempts tried R))
     <= sendto_count R + length l)%nat.
Proof.
  induction l as [|p l IH]; intros attempts tried R; simpl; [lia|].
  destruct (Z.leb_spec (max_retries + 1) attempts) as [Hle|Hgt]; [simpl; lia|].
  case_bool_decide.
  { destruct (IH attempts tried R). lia. }
  unfold _send_to_peer.
  destruct (_socket (peering R)) as [s|] eqn:Hs;
    [destruct (sendto_raises s (sendto_calls s))|].
  - match goal with
    | |- context [relay_loop now m max_retries l ?a ?t ?R1] =>
        destruct (IH a t R1) as [IH1 IH2];
        assert (Hc : sendto_count R1 = S (sendto_count R))
          by (unfold sendto_count; simpl; by rewrite Hs)
    end.
    rewrite Hc in IH1, IH2. lia.
  - cbn [snd]. unfold sendto_count at 1 3.
    rewrite peering__update_avg_hop_count. simpl.
    unfold sendto_count. rewrite Hs. lia.
  - match goal with
    | |- context [relay_loop now m max_retries l ?a ?t ?R1] =>
        destruct (IH a t R1) as [IH1 IH2];
        assert (Hc : sendto_count R1 = sendto_count R) by done
    end.
    rewrite Hc in IH1, IH2. lia.
Qed.

(** A route whose next hop was already tried is skipped for the rest of the
    loop: its object is not touched. *)
Lemma relay_loop_objects_tried (now : datetime) (m : RelayMessage) (max_retries : Z)
    (q : Ref) (l : list Ref) :
  forall (attempts : Z) (tried : gset string) (R : MeshRouter),
    next_hop (deref R q) ∈ tried ->
    objects (snd (relay_loop now m max_retries l attempts tried R)) !! q
    = objects R !! q.
Proof.
  induction l as [|p l IH]; intros attempts tried R Hq; simpl; [done|].
  destruct (max_retries + 1 <=? attempts); [done|].
  case_bool_decide as Hp; [by apply IH|].
  assert (Hne : p <> q) by (intros ->; done).
  pose proof (objects__send_to_peer (MSG_RELAY_DATA m)
                (next_hop_addr (deref R p)) R) as Hobj.
  destruct (_send_to_peer _ _ R) as [[u|e] R1]; simpl in Hobj.
  - simpl. rewrite objects__update_avg_hop_count. simpl.
    rewrite lookup_insert_ne by done. by rewrite Hobj.
  - rewrite IH.
    + rewrite objects_mutate_other by done. by rewrite Hobj.
    + rewrite deref_mutate_other by done.
      unfold deref. rewrite Hobj. fold (deref R q). set_solver.
Qed.

Lemma relay_success_facts (now : datetime) (m : RelayMessage)
    (max_retries : Z) (R : MeshRouter) (m' : RelayMessage) (R' : MeshRouter) :
  relay_message now m max_retries R = (true, m', R') ->
  (exists p, p ∈ viable_routes now (destination m) R /\
     sent_frames R'
     = sent_frames R ++ [(MSG_RELAY_DATA m', next_hop_addr (deref R p))]) /\
  relay_cache R' = <[message_id m := m']> (relay_cache R) /\
  messages_relayed (metrics R') = messages_relayed (metrics R) + 1 /\
  failed_relays (metrics R') = failed_relays (metrics R) /\
  route_table R' = route_table R.
Proof.
  intros Hrun. pose proof (relay_message_true_inv _ _ _ _ _ _ Hrun) as Hinc.
  unfold relay_message in Hrun.
  destruct (max_hops m <=? hop_count m); [done|].
  destruct (get_all_routes now (destination m) R); [done|].
  rewrite Hinc in Hrun. cbn [negb] in Hrun.
  assert (Hid : message_id m' = message_id m).
  { unfold increment_hop in Hinc. by injection Hinc as _ <-. }
  set (R1 := set_relay_cache (<[message_id m':=m']> (relay_cache R)) R) in Hrun.
  pose proof (relay_loop_outcome now m' max_retries
                (viable_routes now (destination m) R) 0 ∅ R1) as Hout.
  pose proof (relay_loop_frame now m' max_retries
                (viable_routes now (destination m) R) 0 ∅ R1) as Hframe.
  simpl in Hout, Hframe.
  destruct (relay_loop now m' max_retries _ 0 ∅ R1) as [[] R2]; [|done].
  injection Hrun as <-. simpl in Hout, Hframe.
  destruct Hout as [(p & Hp & Hsent) Hm].
  destruct Hframe as (Htab & Hcache & _ & _ & _ & Hfail).
  split; [by exists p|].
  rewrite Hcache, Hm, Hfail, Htab. subst R1. simpl. by rewrite Hid.
Qed.





(** X3. One call of [relay_message] calls [sendto] at most
    [max_retries + 1] times (not at all when [max_retries] is negative) and
    at most once per candidate route. *)
Theorem relay_message_attempts_bounded (now : datetime) (m : RelayMessage)
    (max_retries : Z) (R : MeshRouter) :
  (sendto_count (snd (relay_message now m max_retries R))
   <= sendto_count R + Z.to_nat (max_retries + 1))%nat /\
  (sendto_count (snd (relay_message now m max_retries R))
   <= sendto_count R + length (viable_routes now (destination m) R))%nat.
Proof.
  unfold relay_message.
  destruct (max_hops m <=? hop_count m);
    [unfold sendto_count; simpl; lia|].
  destruct (get_all_routes now (destination m) R);
    [unfold sendto_count; simpl; lia|].
  destruct (increment_hop (node_id R) m) as [ok m1].
  destruct ok; cbn [negb]; [|unfold sendto_count; simpl; lia].
  set (R1 := set_relay_cache (<[message_id m1:=m1]> (relay_cache R)) R).
  pose proof (relay_loop_attempts now m1 max_retries
                (viable_routes now (destination m) R) 0 ∅ R1) as [H1 H2].
  replace (max_retries + 1 - 0) with (max_retries + 1) in H1 by lia.
  destruct (relay_loop now m1 max_retries _ 0 ∅ R1) as [[] R2];
    subst R1; unfold sendto_count in *; simpl in *; done.
Qed.

(** X4. When the send to the first candidate fails (no socket, or [sendto]
    raises), exactly one failure is recorded on that route, whatever the
    rest of the walk does: its object afterwards is [record_failure] of what
    it was.  If it was the only candidate the relay returns false. *)
Theorem relay_message_first_failure (now : datetime) (m : RelayMessage)
    (max_retries : Z) (R : MeshRouter) (p : Ref) (rest : list Ref) :
  hop_count m < max_hops m ->
  0 <= max_retries ->
  viable_routes now (destination m) R = p :: rest ->
  match _socket (peering R) with
  | Some s => sendto_raises s (sendto_calls s) = true
  | None => True
  end ->
  deref (snd (relay_message now m max_retries R)) p = record_failure (deref R p) /\
  (rest = [] -> fst (fst (relay_message now m max_retries R)) = false).
Proof.
  intros Httl Hretries Hv Hfail.
  pose proof (viable_routes_nonempty _ _ _ _ _ Hv) as Hall.
  unfold relay_message.
  replace (max_hops m <=? hop_count m) with false by (symmetry; apply Z.leb_gt; lia).
  destruct (get_all_routes now (destination m) R) as [|r0 rs]; [done|].
  rewrite Hv. unfold increment_hop. cbn [hop_count max_hops message_id].
  replace (hop_count m + 1 <=? max_hops m) with true by (symmetry; apply Z.leb_le; lia).
  cbn [negb relay_loop].
  replace (max_retries + 1 <=? 0) with false by (symmetry; apply Z.leb_gt; lia).
  rewrite bool_decide_eq_false_2 by set_solver.
  assert (Hloop : forall (m1 : RelayMessage) (tried : gset string) (R1 : MeshRouter),
            objects R1 = objects R ->
            next_hop (deref R p) ∈ tried ->
            objects (snd (relay_loop now m1 max_retries rest (0 + 1) tried
                            (mutate record_failure p R1))) !! p
            = Some (record_failure (deref R p))).
  { intros m1 tried R1 Hobj Htried.
    assert (Hderef : deref R1 p = deref R p) by (unfold deref; by rewrite Hobj).
    rewrite relay_loop_objects_tried.
    - unfold mutate; simpl. rewrite lookup_insert_eq. by rewrite Hderef.
    - rewrite deref_mutate_same, Hderef.
      destruct (record_failure_static (deref R p)) as (_ & Hnh & _).
      by rewrite Hnh. }
  assert (Hsend : exists R1,
            objects R1 = objects R /\
            _send_to_peer
              (MSG_RELAY_DATA
                 (mkRelayMessage (message_id m) (msg_type m) (origin_node_id m)
                    (destination m) (hop_count m + 1) (max_hops m) (payload m)
                    (path_trace m ++ [node_id R]) (timestamp m)))
              (next_hop_addr
                 (deref (set_relay_cache
                           (<[message_id m :=
                                mkRelayMessage (message_id m) (msg_type m)
                                  (origin_node_id m) (destination m)
                                  (hop_count m + 1) (max_hops m) (payload m)
                                  (path_trace m ++ [node_id R]) (timestamp m)]>
                              (relay_cache R)) R) p))
              (set_relay_cache
                 (<[message_id m :=
                      mkRelayMessage (message_id m) (msg_type m)
                        (origin_node_id m) (destination m)
                        (hop_count m + 1) (max_hops m) (payload m)
                        (path_trace m ++ [node_id R]) (timestamp m)]>
                    (relay_cache R)) R)
            = (Raise (match _socket (peering R) with
                      | Some _ => ExternalError
                      | None => RuntimeError
                      end), R1)).
  { unfold _send_to_peer. cbn [peering set_relay_cache].
    destruct (_socket (peering R)) as [s|] eqn:Hs.
    - rewrite Hfail. eexists. split; [|reflexivity]. reflexivity.
    - eexists. split; [|reflexivity]. reflexivity. }
  destruct Hsend as (R1 & Hobj & ->).
  match goal with
  | |- context [relay_loop ?a ?b ?c ?d ?e ?f (mutate record_failure p R1)] =>
      pose proof (Hloop b f R1 Hobj ltac:(set_solver)) as Hp;
      destruct (relay_loop a b c d e f (mutate record_failure p R1))
        as [ok R2] eqn:Hrun
  end.
  simpl in Hp. split.
  - destruct ok; cbn [snd]; unfold deref; rewrite lookup_total_alt; simpl;
      by rewrite Hp.
  - intros ->. simpl in Hrun. injection Hrun as <- <-. reflexivity.
Qed.

Lemma relay_message_first_failure_witness :
  failure_count
    (deref
       (snd (relay_message Fixtures.t_now Fixtures.sample_relay_message 2
               (Fixtures.install_routes "controller" [Fixtures.sample_route_path]
                  (set_peering (mkMeshPeering ∅ (Some Fixtures.broken_socket))
                     Fixtures.mesh_router)))) 0%nat) = 1.
Proof.
  rewrite (proj1 (relay_message_first_failure Fixtures.t_now
             Fixtures.sample_relay_message 2
             (Fixtures.install_routes "controller" [Fixtures.sample_route_path]
                (set_peering (mkMeshPeering ∅ (Some Fixtures.broken_socket))
                   Fixtures.mesh_router)) 0%nat []
             ltac:(simpl; lia) ltac:(lia) ltac:(vm_compute; reflexivity)
             ltac:(reflexivity))).
  reflexivity.
Defined.

(** ** The rolling hop statistics *)










(** ** The shape of the route table *)


Lemma elem_of_filter_bool {A : Type} (P : A -> bool) (l : list A) (x : A) :
  x ∈ List.filter P l <-> x ∈ l /\ P x = true.
Proof. by rewrite !list_elem_of_In, filter_In. Qed.













Lemma route_table_broadcast (message : Frame) (l : list PeerInfo) :
  forall R : MeshRouter,
    route_table (foldl (fun acc peer =>
                          snd (_send_to_peer message (address peer, port peer) acc)) R l)
    = route_table R.
Proof.
  induction l as [|peer l IH]; intros R; simpl; [done|].
  rewrite IH. unfold _send_to_peer. by repeat case_match.
Qed.




(** Two responses of the same peer leave one route, carrying the figures of
    the second response. *)
Example second_response_updates_in_place :
  let R2 :=
    snd (handle_route_response (Fixtures.t_now + timedelta 40) "node-002"
           ("192.168.1.102", 7777) "abcd1234" "controller" 1 10
           (snd (handle_route_response (Fixtures.t_now + timedelta 30) "node-002"
                   ("192.168.1.102", 7777) "abcd1234" "controller" 0 10
                   Fixtures.router_after_discovery))) in
  route_table R2 !! "controller" = Some [0%nat] /\
  total_hops (deref R2 0%nat) = 2 /\
  last_updated (deref R2 0%nat) = Fixtures.t_now + timedelta 40 /\
  routes_discovered (metrics R2) = 1.
Proof. vm_compute. repeat split. Qed.

(** ** The expiry sweep *)

Lemma valid_routes_length (now : datetime) (R : MeshRouter) (l : list Ref) :
  (length (valid_routes now R l) <= length l)%nat.
Proof.
  unfold valid_routes. induction l as [|p l IH]; simpl; [done|].
  destruct (negb _); simpl; lia.
Qed.

Lemma valid_routes_idemp (now : datetime) (R : MeshRouter) (l : list Ref) :
  valid_routes now R (valid_routes now R l) = valid_routes now R l.
Proof.
  unfold valid_routes. induction l as [|p l IH]; simpl; [done|].
  destruct (negb (is_expired now (deref R p))) eqn:Hp; simpl; [|done].
  by rewrite Hp, IH.
Qed.

Lemma cleanup_count (now : datetime) (R : MeshRouter) (m : gmap string (list Ref)) :
  map_fold (fun _ l acc =>
              acc + (Z.of_nat (length l) - Z.of_nat (length (valid_routes now R l))))
    0 m
  = map_fold (fun _ l acc => acc + Z.of_nat (length l)) 0 m
    - map_fold (fun _ l acc => acc + Z.of_nat (length l)) 0
        (omap (fun l => match valid_routes now R l with
                        | [] => None
                        | l' => Some l'
                        end) m).
Proof.
  induction m as [|i x m Hi IH] using map_ind.
  - by rewrite omap_empty, !map_fold_empty.
  - rewrite !map_fold_insert_L; [|intros; lia|done|intros; lia|done].
    rewrite IH.
    destruct (valid_routes now R x) as [|y l'] eqn:Hx.
    + rewrite omap_insert_None by (by rewrite Hx).
      rewrite delete_id by (by rewrite lookup_omap, Hi).
      simpl. lia.
    + rewrite (omap_insert_Some _ _ _ _ (y :: l')) by (by rewrite Hx).
      rewrite map_fold_insert_L;
        [|intros; lia|by rewrite lookup_omap, Hi].
      lia.
Qed.

(** X7. After [cleanup_expired_routes] no listed route is expired and no
    destination is left with an empty list; each list is the old list
    without its expired routes, in the old order.  The number returned is
    never negative and is exactly the number of routes the table lost.
    Route lookup is not affected: [get_all_routes], [select_best_route] and
    [has_route_to] answer as before the sweep.  A second sweep at the same
    instant removes nothing. *)
Theorem cleanup_expired_routes_spec (now : datetime) (R : MeshRouter) :
  let removed := fst (cleanup_expired_routes now R) in
  let R' := snd (cleanup_expired_routes now R) in
  (forall dest l, route_table R' !! dest = Some l ->
     l <> [] /\
     (exists l0, route_table R !! dest = Some l0 /\ l = valid_routes now R l0) /\
     (forall p, p ∈ l -> is_expired now (deref R' p) = false)) /\
  (0 <= removed /\ removed = total_routes R - total_routes R') /\
  (forall dest,
     get_all_routes now dest R' = get_all_routes now dest R /\
     select_best_route now dest R' = select_best_route now dest R /\
     has_route_to now dest R' = has_route_to now dest R) /\
  cleanup_expired_routes now R' = (0, R').
Proof.
  intros removed R'.
  assert (Hlookup : forall dest,
            route_table R' !! dest
            = match route_table R !! dest with
              | Some l0 => match valid_routes now R l0 with
                           | [] => None
                           | l' => Some l'
                           end
              | None => None
              end).
  { intros dest. subst R'. unfold cleanup_expired_routes; simpl.
    rewrite lookup_omap. by destruct (route_table R !! dest). }
  assert (Hvalid : forall l, valid_routes now R' l = valid_routes now R l) by done.
  assert (Hall : forall dest,
            get_all_routes now dest R' = get_all_routes now dest R).
  { intros dest. unfold get_all_routes. rewrite Hlookup.
    destruct (route_table R !! dest) as [l0|]; [|done].
    destruct (valid_routes now R l0) as [|y l'] eqn:Hl0; [done|].
    rewrite Hvalid, <- Hl0. apply valid_routes_idemp. }
  assert (Hcount : removed = total_routes R - total_routes R').
  { subst removed R'. unfold cleanup_expired_routes, total_routes; simpl.
    apply cleanup_count. }
  split; [|split; [|split]].
  - intros dest l Hl. rewrite Hlookup in Hl.
    destruct (route_table R !! dest) as [l0|]; [|done].
    destruct (valid_routes now R l0) as [|y l'] eqn:Hl0; [done|].
    injection Hl as <-. split; [done|]. split; [by exists l0|].
    intros p Hp. rewrite <- Hl0 in Hp.
    by apply valid_routes_not_expired in Hp as [_ Hp].
  - split; [|exact Hcount].
    subst removed. unfold cleanup_expired_routes; simpl.
    apply (map_fold_weak_ind (fun r _ => 0 <= r)); [done|].
    intros i l m r _ Hr. pose proof (valid_routes_length now R l). lia.
  - intros dest. split; [apply Hall|].
    pose proof (Hall dest) as Hd. unfold get_all_routes in Hd.
    unfold select_best_route, has_route_to.
    destruct (route_table R' !! dest) as [l'|], (route_table R !! dest) as [l0|];
      rewrite ?Hvalid in *.
    + by rewrite Hd.
    + by rewrite Hd.
    + by rewrite <- Hd.
    + done.
  - assert (Hfix : omap (fun l => match valid_routes now R' l with
                                  | [] => None
                                  | l' => Some l'
                                  end) (route_table R') = route_table R').
    { apply map_eq. intros dest. rewrite lookup_omap, Hlookup.
      destruct (route_table R !! dest) as [l0|]; [|done]. simpl.
      destruct (valid_routes now R l0) as [|y l'] eqn:Hl0; [done|].
      cbv beta iota delta [mbind option_bind].
      rewrite Hvalid. rewrite <- Hl0 at 1. by rewrite valid_routes_idemp, Hl0. }
    unfold cleanup_expired_routes at 1. f_equal.
    + rewrite cleanup_count. rewrite Hfix. lia.
    + rewrite Hfix. by destruct R'.
Qed.

Lemma cleanup_expired_routes_spec_witness :
  fst (cleanup_expired_routes Fixtures.t_now Fixtures.router_mixed) = 1 /\
  is_expired Fixtures.t_now
    (deref (snd (cleanup_expired_routes Fixtures.t_now Fixtures.router_mixed)) 0%nat)
  = false.
Proof.
  split; [vm_compute; reflexivity|].
  destruct (proj1 (cleanup_expired_routes_spec Fixtures.t_now Fixtures.router_mixed)
              "controller" [0%nat] ltac:(vm_compute; reflexivity))
    as (_ & _ & Hfresh).
  apply Hfresh. left.
Defined.

(** ** Lookup of routes *)

Lemma lookups_agree (now : datetime) (dest : string) (R : MeshRouter) :
  (has_route_to now dest R = true <-> is_Some (select_best_route now dest R)) /\
  (has_route_to now dest R = true <-> get_all_routes now dest R <> []) /\
  (forall p, select_best_route now dest R = Some p ->
             p ∈ get_all_routes now dest R).
Proof.
  unfold has_route_to, get_all_routes.
  rewrite select_best_route_eq.
  destruct (route_table R !! dest) as [l|]; simpl.
  2:{ repeat split; try done; try (by intros [? ?]). }
  pose proof (list_sort_perm (fun p => sort_key (deref R p)) (valid_routes now R l))
    as Hperm.
  destruct (valid_routes now R l) as [|q v] eqn:Hv.
  - simpl. repeat split; try done; try (by intros [? ?]).
  - destruct (list_sort (fun p => sort_key (deref R p)) (q :: v)) as [|x s] eqn:Hs.
    { by apply Permutation_nil_cons in Hperm. }
    cbn [head length]. repeat split; try done.
    intros p [= <-]. rewrite <- Hperm. left.
Qed.

(** X8. The three lookups agree: [has_route_to] is true exactly when
    [select_best_route] returns a route, exactly when [get_all_routes] is
    not empty; and the route [select_best_route] returns is one of
    [get_all_routes]. *)
Theorem route_lookups_agree (now : datetime) (dest : string) (R : MeshRouter) :
  (has_route_to now dest R = true <-> is_Some (select_best_route now dest R)) /\
  (has_route_to now dest R = true <-> get_all_routes now dest R <> []) /\
  (forall p, select_best_route now dest R = Some p ->
             p ∈ get_all_routes now dest R).
Proof. apply lookups_agree. Qed.

(** ** Invalidation *)

(** X9. [invalidate_route dest nh] removes from the list of [dest] every
    route whose next hop is [nh] and keeps the others in order; the key
    [dest] stays in the table even when its list becomes empty.  Other
    destinations, the route objects and a table without [dest] are left
    alone.  Afterwards [select_best_route] never returns a route through
    [nh] for [dest]. *)
Theorem invalidate_route_spec (dest nh : string) (R : MeshRouter) :
  let R' := invalidate_route dest nh R in
  objects R' = objects R /\
  (forall d, d <> dest -> route_table R' !! d = route_table R !! d) /\
  (route_table R !! dest = None -> R' = R) /\
  (forall l, route_table R !! dest = Some l ->
     route_table R' !! dest
     = Some (List.filter (fun p => negb (String.eqb (next_hop (deref R p)) nh)) l)) /\
  (forall now p, select_best_route now dest R' = Some p ->
                 next_hop (deref R' p) <> nh).
Proof.
  intros R'. subst R'. unfold invalidate_route.
  destruct (route_table R !! dest) as [l|] eqn:Hl.
  - split; [done|]. split; [|split; [done|split]].
    + intros d Hd. simpl. by rewrite lookup_insert_ne.
    + intros l' [= <-]. simpl. by rewrite lookup_insert_eq.
    + intros now p Hp.
      match type of Hp with
      | select_best_route now dest ?R1 = _ =>
          destruct (lookups_agree now dest R1) as (_ & _ & Hin)
      end.
      apply Hin in Hp. unfold get_all_routes in Hp. simpl in Hp.
      rewrite lookup_insert_eq in Hp.
      apply valid_routes_not_expired in Hp as [Hp _].
      apply elem_of_filter_bool in Hp as [_ Hp].
      apply negb_true_iff, String.eqb_neq in Hp. exact Hp.
  - split; [done|]. split; [done|]. split; [done|]. split; [done|].
    intros now p Hp. unfold select_best_route in Hp. by rewrite Hl in Hp.
Qed.

Lemma invalidate_route_spec_witness :
  route_table (invalidate_route "controller" "node-002" Fixtures.router_two_hops)
    !! "controller" = Some [1%nat].
Proof.
  etrans.
  - exact (proj1 (proj2 (proj2 (proj2
             (invalidate_route_spec "controller" "node-002"
                Fixtures.router_two_hops)))) [0%nat; 1%nat]
             ltac:(vm_compute; reflexivity)).
  - vm_compute. reflexivity.
Defined.

Lemma route_lookups_agree_witness :
  1%nat ∈ get_all_routes Fixtures.t_now "controller" Fixtures.router_hops_vs_rtt.
Proof.
  apply (proj2 (proj2 (route_lookups_agree Fixtures.t_now "controller"
                         Fixtures.router_hops_vs_rtt))).
  vm_compute. reflexivity.
Defined.

(** ** Route discovery *)

(** The broadcast of [discover_routes] over a list of peers. *)
Lemma broadcast_spec (message : Frame) (l : list PeerInfo) :
  forall R : MeshRouter,
    let R' := foldl (fun acc peer =>
                       snd (_send_to_peer message (address peer, port peer) acc)) R l in
    (pending_requests R' = pending_requests R /\
     relay_cache R' = relay_cache R /\
     metrics R' = metrics R /\
     node_id R' = node_id R /\
     peers (peering R') = peers (peering R)) /\
    (exists delivered,
       sent_frames R' = sent_frames R ++ delivered /\
       forall f, f ∈ delivered ->
         exists peer, peer ∈ l /\ f = (message, (address peer, port peer))) /\
    (is_Some (_socket (peering R)) ->
     sendto_count R' = (sendto_count R + length l)%nat) /\
    (_socket (peering R) = None -> R' = R) /\
    (forall s, _socket (peering R) = Some s ->
               (forall i, sendto_raises s i = false) ->
               sent_frames R'
               = sent_frames R ++ ((fun peer => (message, (address peer, port peer))) <$> l)).
Proof.
  induction l as [|peer l IH]; intros R; cbn [foldl].
  { split; [done|]. split; [exists []; split; [by rewrite app_nil_r|]|].
    - intros f Hf. by apply elem_of_nil in Hf.
    - split; [intros _; simpl; lia|]. split; [done|].
      intros s _ _. simpl. by rewrite app_nil_r. }
  set (R1 := snd (_send_to_peer message (address peer, port peer) R)).
  specialize (IH R1). cbn zeta in IH.
  destruct IH as ((Hp & Hc & Hm & Hn & Hpeers) & (delivered & Hsent & Hdel)
                   & Hcount & Hnone & Hall).
  assert (Hframe1 : pending_requests R1 = pending_requests R /\
                    relay_cache R1 = relay_cache R /\
                    metrics R1 = metrics R /\
                    node_id R1 = node_id R /\
                    peers (peering R1) = peers (peering R)).
  { subst R1. unfold _send_to_peer. by repeat case_match. }
  destruct Hframe1 as (Hp1 & Hc1 & Hm1 & Hn1 & Hpeers1).
  split; [repeat split; congruence|].
  destruct (_socket (peering R)) as [s|] eqn:Hs.
  - assert (Hstep : _socket (peering R1)
                    = Some (mkSocket (sendto_raises s) (S (sendto_calls s))
                              (if sendto_raises s (sendto_calls s) then sent s
                               else sent s ++ [(message, (address peer, port peer))]))).
    { subst R1. unfold _send_to_peer. rewrite Hs.
      by destruct (sendto_raises s (sendto_calls s)). }
    assert (Hsent1 : sent_frames R1
                     = sent_frames R
                       ++ (if sendto_raises s (sendto_calls s) then []
                           else [(message, (address peer, port peer))])).
    { unfold sent_frames. rewrite Hstep, Hs. simpl.
      destruct (sendto_raises s (sendto_calls s)); [by rewrite app_nil_r|done]. }
    split; [|split; [|split]].
    + exists ((if sendto_raises s (sendto_calls s) then []
               else [(message, (address peer, port peer))]) ++ delivered).
      split; [by rewrite Hsent, Hsent1, app_assoc|].
      intros f [Hf|Hf]%elem_of_app.
      * destruct (sendto_raises s (sendto_calls s));
          [by apply elem_of_nil in Hf|].
        apply list_elem_of_singleton in Hf. exists peer. split; [left|done].
      * destruct (Hdel f Hf) as (peer' & Hin & ->). exists peer'.
        split; [by right|done].
    + intros _. rewrite Hcount by (by rewrite Hstep).
      unfold sendto_count. rewrite Hstep, Hs. simpl. lia.
    + done.
    + intros s' [= <-] Hok.
      rewrite (Hall _ Hstep) by (intros i; apply Hok).
      rewrite Hsent1, Hok. by rewrite <- app_assoc.
  - assert (HR1 : R1 = R) by (subst R1; unfold _send_to_peer; by rewrite Hs).
    rewrite HR1 in *.
    split; [|split; [|split]].
    + exists delivered. split; [done|].
      intros f Hf. destruct (Hdel f Hf) as (peer' & Hin & ->). exists peer'.
      split; [by right|done].
    + by intros [? ?].
    + intros _. by apply Hnone.
    + by intros s.
Qed.

Lemma discover_routes_facts (now : datetime) (request_id dest : string)
    (R : MeshRouter) :
  let R' := snd (discover_routes now request_id dest R) in
  let reachable_peers := get_reachable_peers (peering R) in
  let request := MSG_ROUTE_REQUEST (node_id R) request_id dest in
  fst (discover_routes now request_id dest R) = request_id /\
  pending_requests R' = <[request_id := now]> (pending_requests R) /\
  (route_table R' = route_table R /\ objects R' = objects R /\
   relay_cache R' = relay_cache R /\ metrics R' = metrics R) /\
  (exists delivered,
     sent_frames R' = sent_frames R ++ delivered /\
     forall f, f ∈ delivered ->
       exists peer, peer ∈ reachable_peers /\ status peer = REACHABLE /\
                    f = (request, (address peer, port peer))) /\
  (is_Some (_socket (peering R)) ->
   sendto_count R' = (sendto_count R + length reachable_peers)%nat) /\
  (_socket (peering R) = None -> sent_frames R' = []) /\
  (forall s, _socket (peering R) = Some s ->
             (forall i, sendto_raises s i = false) ->
             sent_frames R'
             = sent_frames R
               ++ ((fun peer => (request, (address peer, port peer))) <$> reachable_peers)).
Proof.
  intros R' reachable_peers request.
  set (R0 := set_pending_requests (<[request_id:=now]> (pending_requests R)) R).
  pose proof (broadcast_spec request reachable_peers R0) as Hb. cbn zeta in Hb.
  assert (HR' : R' = foldl (fun acc peer =>
                              snd (_send_to_peer request (address peer, port peer) acc))
                       R0 reachable_peers) by reflexivity.
  rewrite <- HR' in Hb. clearbody R'.
  destruct Hb as ((Hp & Hc & Hm & Hn & Hpeers) & (delivered & Hsent & Hdel)
                   & Hcount & Hnone & Hall).
  split; [done|]. split; [by rewrite Hp|].
  split.
  { rewrite HR', route_table_broadcast, objects_broadcast. by rewrite <- HR', Hc, Hm. }
  split.
  { exists delivered. split; [done|].
    intros f Hf. destruct (Hdel f Hf) as (peer & Hin & ->). exists peer.
    split; [done|]. split; [|done].
    subst reachable_peers. unfold get_reachable_peers in Hin.
    apply elem_of_filter_bool in Hin as [_ Hst].
    by destruct (status peer). }
  split; [exact Hcount|].
  split; [|exact Hall].
  intros Hs. rewrite (Hnone Hs). unfold sent_frames. subst R0. simpl. by rewrite Hs.
Qed.

(** X10. [discover_routes] returns the request id it was given, records it
    in [pending_requests] with the current time (replacing an older entry of
    the same id) and leaves the route table, the route objects, the in-flight
    cache and the metrics alone.  Every datagram it sends is the
    ROUTE_REQUEST for that id and destination, addressed to a REACHABLE peer;
    with an open socket it calls [sendto] once per REACHABLE peer, and when
    no send raises each of them receives the request.  Without a socket
    nothing is sent, and the request is recorded all the same. *)
Theorem discover_routes_spec (now : datetime) (request_id dest : string)
    (R : MeshRouter) :
  let R' := snd (discover_routes now request_id dest R) in
  let reachable_peers := get_reachable_peers (peering R) in
  let request := MSG_ROUTE_REQUEST (node_id R) request_id dest in
  fst (discover_routes now request_id dest R) = request_id /\
  pending_requests R' = <[request_id := now]> (pending_requests R) /\
  (route_table R' = route_table R /\ objects R' = objects R /\
   relay_cache R' = relay_cache R /\ metrics R' = metrics R) /\
  (exists delivered,
     sent_frames R' = sent_frames R ++ delivered /\
     forall f, f ∈ delivered ->
       exists peer, peer ∈ reachable_peers /\ status peer = REACHABLE /\
                    f = (request, (address peer, port peer))) /\
  (is_Some (_socket (peering R)) ->
   sendto_count R' = (sendto_count R + length reachable_peers)%nat) /\
  (_socket (peering R) = None -> sent_frames R' = []) /\
  (forall s, _socket (peering R) = Some s ->
             (forall i, sendto_raises s i = false) ->
             sent_frames R'
             = sent_frames R
               ++ ((fun peer => (request, (address peer, port peer))) <$> reachable_peers)).
Proof. apply discover_routes_facts. Qed.

Lemma discover_routes_spec_witness :
  sent_frames
    (snd (discover_routes Fixtures.t_now "abcd1234" "controller"
            Fixtures.router_with_peer))
  = [(MSG_ROUTE_REQUEST "test-node-001" "abcd1234" "controller",
      ("192.168.1.102", 7777))].
Proof.
  etrans.
  - apply (proj2 (proj2 (proj2 (proj2 (proj2 (proj2
             (discover_routes_spec Fixtures.t_now "abcd1234" "controller"
                Fixtures.router_with_peer)))))) Fixtures.mock_socket).
    + reflexivity.
    + intros i. reflexivity.
  - vm_compute. reflexivity.
Defined.

(** ** Answering a route request *)

(** X11. [handle_route_request] never changes the routing state (route
    table, route objects, pending requests, in-flight cache, metrics).  It
    sends at most one datagram: a ROUTE_RESPONSE to the requester's address
    that echoes the request id and the destination and carries this node's
    id and a hop count between 0 and 65535.  When this node has nothing to
    offer it stays silent and returns normally; when it has an offer but no
    socket, the [RuntimeError] of the send escapes to the caller. *)
Theorem handle_route_request_spec (now : datetime) (sender_id : string)
    (sender_addr : Addr) (request_id dest : string) (R : MeshRouter) :
  let res := handle_route_request now sender_id sender_addr request_id dest R in
  let offer := route_offer now dest R in
  (route_table (snd res) = route_table R /\ objects (snd res) = objects R /\
   pending_requests (snd res) = pending_requests R /\
   relay_cache (snd res) = relay_cache R /\ metrics (snd res) = metrics R) /\
  (sent_frames (snd res) = sent_frames R \/
   (sent_frames (snd res)
    = sent_frames R
      ++ [(MSG_ROUTE_RESPONSE (node_id R) request_id dest (fst offer) (snd offer),
           sender_addr)] /\
    0 <= fst offer <= 65535 /\ fst res = Return tt)) /\
  (fst offer < 0 -> res = (Return tt, R)) /\
  (0 <= fst offer <= 65535 -> _socket (peering R) = None ->
   res = (Raise RuntimeError, R)).
Proof.
  intros res offer. subst res offer.
  unfold handle_route_request, _send_route_response.
  destruct (route_offer now dest R) as [hops rtt]. cbn [fst snd].
  destruct (Z.leb_spec 0 hops) as [Hpos|Hneg].
  2:{ split; [repeat split|]. split; [by left|]. split; [done|]. intros ?. lia. }
  destruct (Z.leb_spec hops 65535) as [Hle|Hgt]; cbn [andb].
  2:{ split; [repeat split|]. split; [by left|]. split; intros ?; lia. }
  unfold _send_to_peer, sent_frames.
  destruct (_socket (peering R)) as [s|] eqn:Hs.
  - destruct (sendto_raises s (sendto_calls s)); simpl; rewrite ?Hs.
    + split; [repeat split|]. split; [by left|]. split; [intros ?; lia|done].
    + split; [repeat split|]. split; [right; repeat split; done || lia|].
      split; [intros ?; lia|done].
  - simpl. rewrite Hs.
    split; [repeat split|]. split; [by left|]. split; [intros ?; lia|done].
Qed.

Lemma handle_route_request_spec_witness :
  handle_route_request Fixtures.t_now "node-001" ("192.168.1.101", 7777)
    "abcd1234" "node-007" Fixtures.mesh_router
  = (Return tt, Fixtures.mesh_router).
Proof.
  apply (proj1 (proj2 (proj2
           (handle_route_request_spec Fixtures.t_now "node-001"
              ("192.168.1.101", 7777) "abcd1234" "node-007" Fixtures.mesh_router)))).
  vm_compute. reflexivity.
Defined.

(** ** A discovery from request to route *)

(** What an accepted response leaves behind. *)
Lemma handle_route_response_accepts (now : datetime) (sender_id : string)
    (sender_addr : Addr) (request_id dest : string) (hops : Z) (rtt : Q)
    (R : MeshRouter) (peer : PeerInfo) :
  is_Some (pending_requests R !! request_id) ->
  peers (peering R) !! sender_id = Some peer ->
  exists p l,
    route_table
      (snd (handle_route_response now sender_id sender_addr request_id dest hops rtt R))
      !! dest = Some l /\
    p ∈ l /\
    next_hop
      (deref (snd (handle_route_response now sender_id sender_addr request_id dest
                     hops rtt R)) p) = sender_id /\
    total_hops
      (deref (snd (handle_route_response now sender_id sender_addr request_id dest
                     hops rtt R)) p) = hops + 1 /\
    last_updated
      (deref (snd (handle_route_response now sender_id sender_addr request_id dest
                     hops rtt R)) p) = now.
Proof.
  intros [t Hpending] Hpeer. unfold handle_route_response.
  rewrite Hpending, Hpeer.
  set (routes := default [] (route_table R !! dest)).
  set (R1 := set_route_table (<[dest:=routes]> (route_table R)) R).
  destruct (List.filter _ routes) as [|existing rest] eqn:Hfilter.
  - exists (fresh (dom (objects R1))), (routes ++ [fresh (dom (objects R1))]).
    cbn [snd]. unfold deref; simpl. rewrite lookup_insert_eq.
    rewrite lookup_total_insert_eq. simpl.
    repeat split. set_solver.
  - assert (Hin : existing ∈ List.filter
              (fun p => String.eqb (next_hop (deref R1 p)) sender_id) routes)
      by (rewrite Hfilter; left).
    apply elem_of_filter_bool in Hin as [Hin Hnh].
    apply String.eqb_eq in Hnh.
    exists existing, routes. cbn [snd].
    rewrite deref_mutate_same. simpl.
    split; [apply lookup_insert_eq|]. by repeat split.
Qed.

(** X12. A discovery end to end.  Node [A] lists node [B] as a REACHABLE
    peer; [B] has direct contact with the controller; on both sockets the
    sends go through.  Then [A]'s discovery puts the ROUTE_REQUEST on the wire
    to [B]; [B] answers it with one ROUTE_RESPONSE of 0 hops and 10 ms to the
    requester's address; and once [A] has handled that response it has a
    route to the controller: [has_route_to] is true and [select_best_route]
    returns a route. *)
Theorem discovery_round_trip (now : datetime) (request_id : string)
    (A B : MeshRouter) (peerB : PeerInfo) (addrA : Addr) (sA sB : Socket) :
  peers (peering A) !! node_id B = Some peerB ->
  status peerB = REACHABLE ->
  _socket (peering A) = Some sA ->
  (forall i, sendto_raises sA i = false) ->
  _socket (peering B) = Some sB ->
  sendto_raises sB (sendto_calls sB) = false ->
  can_reach_controller_directly now B = true ->
  let A1 := snd (discover_routes now request_id "controller" A) in
  let B1 := snd (handle_route_request now (node_id A) addrA request_id "controller" B) in
  let A2 := snd (handle_route_response now (node_id B) (address peerB, port peerB)
                   request_id "controller" 0 10 A1) in
  (MSG_ROUTE_REQUEST (node_id A) request_id "controller", (address peerB, port peerB))
    ∈ sent_frames A1 /\
  sent_frames B1
  = sent sB ++ [(MSG_ROUTE_RESPONSE (node_id B) request_id "controller" 0 10, addrA)] /\
  has_route_to now "controller" A2 = true /\
  is_Some (select_best_route now "controller" A2).
Proof.
  intros HpeerB Hstatus HsA HokA HsB HokB Hdirect A1 B1 A2.
  destruct (discover_routes_facts now request_id "controller" A)
    as (_ & Hpending & _ & _ & _ & _ & Hall).
  cbn zeta in Hpending, Hall. fold A1 in Hpending, Hall.
  assert (HpeersA1 : peers (peering A1) = peers (peering A)).
  { subst A1. unfold discover_routes. cbn [snd].
    pose proof (broadcast_spec (MSG_ROUTE_REQUEST (node_id A) request_id "controller")
                  (get_reachable_peers (peering A))
                  (set_pending_requests (<[request_id:=now]> (pending_requests A)) A))
      as ((_ & _ & _ & _ & Hp) & _).
    exact Hp. }
  split; [|split].
  - rewrite (Hall sA HsA HokA). apply elem_of_app. right.
    apply list_elem_of_fmap. exists peerB. split; [done|].
    unfold get_reachable_peers. apply elem_of_filter_bool. split.
    + apply list_elem_of_fmap. exists (node_id B, peerB). split; [done|].
      by apply elem_of_map_to_list.
    + by rewrite Hstatus.
  - subst B1. unfold handle_route_request, route_offer.
    rewrite String.eqb_refl, Hdirect. cbn [Z.leb].
    unfold _send_route_response. cbn [Z.leb andb].
    unfold _send_to_peer, sent_frames. by rewrite HsB, HokB.
  - destruct (handle_route_response_accepts now (node_id B) (address peerB, port peerB)
                request_id "controller" 0 10 A1 peerB)
      as (p & l & Hl & Hp & _ & _ & Hupdated).
    { rewrite Hpending. by rewrite lookup_insert_eq. }
    { by rewrite HpeersA1. }
    fold A2 in Hl, Hupdated.
    assert (Hvalid : p ∈ valid_routes now A2 l).
    { apply valid_routes_not_expired. split; [done|].
      unfold is_expired. rewrite Hupdated. apply Z.ltb_ge.
      unfold timedelta. lia. }
    assert (Hhas : has_route_to now "controller" A2 = true).
    { unfold has_route_to. rewrite Hl.
      destruct (valid_routes now A2 l); [by apply elem_of_nil in Hvalid|done]. }
    split; [exact Hhas|].
    by apply (proj1 (lookups_agree now "controller" A2)).
Qed.

Lemma discovery_round_trip_witness :
  has_route_to Fixtures.t_now "controller"
    (snd (handle_route_response Fixtures.t_now "node-002" ("192.168.1.102", 7777)
            "abcd1234" "controller" 0 10
            (snd (discover_routes Fixtures.t_now "abcd1234" "controller"
                    Fixtures.router_with_peer)))) = true.
Proof.
  apply (discovery_round_trip Fixtures.t_now "abcd1234" Fixtures.router_with_peer
           Fixtures.router_node_002 Fixtures.node_002 ("192.168.1.101", 7777)
           Fixtures.mock_socket Fixtures.mock_socket).
  - vm_compute. reflexivity.
  - reflexivity.
  - reflexivity.
  - intros i. reflexivity.
  - reflexivity.
  - reflexivity.
  - vm_compute. reflexivity.
Defined.

(** ** Acknowledgements received *)

(** X13. [handle_relay_ack] for an id that is not in the in-flight cache
    changes nothing and calls nothing.  For a cached id it removes that entry
    and no other, and calls the completion callback, when one is set, with
    the id and the reported outcome, for a success and for a failure alike.
    A second ack for the same id is ignored.  The route table, the route
    objects and the metrics are never touched. *)
Theorem handle_relay_ack_spec (has_callback : bool) (mid : string)
    (success : bool) (R : MeshRouter) :
  let res := handle_relay_ack has_callback mid success R in
  (relay_cache R !! mid = None -> res = (None, R)) /\
  (is_Some (relay_cache R !! mid) ->
   fst res = (if has_callback then Some (mid, success) else None)) /\
  relay_cache (snd res) = delete mid (relay_cache R) /\
  (forall has_callback' success',
     handle_relay_ack has_callback' mid success' (snd res) = (None, snd res)) /\
  (route_table (snd res) = route_table R /\ objects (snd res) = objects R /\
   metrics (snd res) = metrics R /\ pending_requests (snd res) = pending_requests R).
Proof.
  intros res. subst res. unfold handle_relay_ack.
  destruct (relay_cache R !! mid) as [m|] eqn:Hm; cbn [fst snd].
  - split; [done|]. split; [done|]. split; [done|]. split; [|done].
    intros hc s'. simpl. by rewrite lookup_delete_eq.
  - split; [done|]. split; [by intros [? ?]|].
    split; [by rewrite delete_id|]. split; [|done].
    intros hc s'. by rewrite Hm.
Qed.

Lemma handle_relay_ack_spec_witness :
  handle_relay_ack true "unknown-msg-id" true Fixtures.mesh_router
  = (None, Fixtures.mesh_router).
Proof.
  apply (proj1 (handle_relay_ack_spec true "unknown-msg-id" true Fixtures.mesh_router)).
  vm_compute. reflexivity.
Defined.

(** X14. Relay, then ack.  After a relay that returned true, the ack for
    the message id, whether it reports success or failure, calls the
    completion callback with that id and outcome and takes the message out
    of the in-flight cache: the cache is what it was before the relay, less
    any entry of that id. *)
Theorem relay_then_ack (now : datetime) (m : RelayMessage) (max_retries : Z)
    (R : MeshRouter) (m' : RelayMessage) (R' : MeshRouter) (success : bool) :
  relay_message now m max_retries R = (true, m', R') ->
  relay_cache R' !! message_id m = Some m' /\
  fst (handle_relay_ack true (message_id m) success R')
  = Some (message_id m, success) /\
  relay_cache (snd (handle_relay_ack true (message_id m) success R'))
  = delete (message_id m) (relay_cache R).
Proof.
  intros Hrun.
  destruct (relay_success_facts _ _ _ _ _ _ Hrun) as (_ & Hcache & _).
  assert (Hin : relay_cache R' !! message_id m = Some m')
    by (by rewrite Hcache, lookup_insert_eq).
  split; [exact Hin|].
  unfold handle_relay_ack. rewrite Hin. cbn [fst snd]. split; [done|].
  simpl. rewrite Hcache. apply delete_insert_eq.
Qed.

Lemma relay_then_ack_witness :
  relay_cache
    (snd (handle_relay_ack true "test-msg-001" false
            (snd (relay_message Fixtures.t_now Fixtures.sample_relay_message 2
                    (Fixtures.install_routes "controller" [Fixtures.sample_route_path]
                       Fixtures.mesh_router)))))
  = delete "test-msg-001" ∅.
Proof.
  destruct (relay_message Fixtures.t_now Fixtures.sample_relay_message 2
              (Fixtures.install_routes "controller" [Fixtures.sample_route_path]
                 Fixtures.mesh_router)) as [[ok m'] R'] eqn:Hrun.
  assert (Hok : ok = true).
  { apply (f_equal (fun x => fst (fst x))) in Hrun. vm_compute in Hrun. by subst. }
  subst ok.
  exact (proj2 (proj2 (relay_then_ack _ _ _ _ _ _ false Hrun))).
Defined.

(** ** Terminal forwarding to the controller *)

Lemma Addr_eqb_eq (a b : Addr) : Addr_eqb a b = true <-> a = b.
Proof.
  destruct a as [a1 a2], b as [b1 b2]. unfold Addr_eqb; simpl.
  rewrite andb_true_iff, String.eqb_eq, Z.eqb_eq. split.
  - by intros [-> ->].
  - by intros [= -> ->].
Qed.

(** The loop of [_forward_to_controller] over the routes of the table. *)
Lemma refresh_routes_spec (now : datetime) (sender_addr : Addr) (l : list Ref) :
  forall acc : MeshRouter,
    let R' := foldl (fun acc p =>
                       if Addr_eqb (next_hop_addr (deref acc p)) sender_addr
                       then mutate (record_success now) p acc else acc) acc l in
    (route_table R' = route_table acc /\ metrics R' = metrics acc /\
     peering R' = peering acc /\ relay_cache R' = relay_cache acc) /\
    same_static_fields acc R' /\
    (forall q, q ∉ l \/ next_hop_addr (deref acc q) <> sender_addr ->
               objects R' !! q = objects acc !! q) /\
    (forall q, q ∈ l -> next_hop_addr (deref acc q) = sender_addr ->
               last_updated (deref R' q) = now).
Proof.
  induction l as [|p l IH]; intros acc; cbn [foldl].
  { split; [done|]. split; [apply same_static_fields_refl|]. split; [done|].
    intros q Hq. by apply elem_of_nil in Hq. }
  set (acc1 := if Addr_eqb (next_hop_addr (deref acc p)) sender_addr
               then mutate (record_success now) p acc else acc).
  assert (Hstatic1 : same_static_fields acc acc1).
  { subst acc1. case_match; [|apply same_static_fields_refl].
    apply same_static_fields_mutate.
    intros r. pose proof (record_success_static now r). tauto. }
  assert (Hframe1 : route_table acc1 = route_table acc /\ metrics acc1 = metrics acc /\
                    peering acc1 = peering acc /\ relay_cache acc1 = relay_cache acc)
    by (subst acc1; by case_match).
  specialize (IH acc1). cbn zeta in IH.
  destruct IH as (Hframe & Hstatic & Hother & Hfresh).
  destruct Hframe1 as (Ht1 & Hm1 & Hp1 & Hc1).
  destruct Hframe as (Ht & Hm & Hp & Hc).
  split; [repeat split; congruence|].
  split; [by eapply same_static_fields_trans|].
  assert (Haddr : forall q, next_hop_addr (deref acc1 q) = next_hop_addr (deref acc q)).
  { intros q. by destruct (Hstatic1 q) as (_ & _ & ?). }
  split.
  - intros q Hq. rewrite Hother.
    + subst acc1. destruct (Addr_eqb _ sender_addr) eqn:Hmatch; [|done].
      apply Addr_eqb_eq in Hmatch.
      apply objects_mutate_other. intros ->.
      destruct Hq as [Hq|Hq]; [apply Hq; left|done].
    + destruct Hq as [Hq|Hq]; [left; set_solver|right; by rewrite Haddr].
  - intros q Hq Hmatch.
    destruct (decide (q ∈ l)) as [Hin|Hnotin].
    + apply Hfresh; [done|by rewrite Haddr].
    + apply elem_of_cons in Hq as [->|Hq]; [|done].
      unfold deref at 1. rewrite lookup_total_alt, Hother by (by left).
      subst acc1. apply Addr_eqb_eq in Hmatch. rewrite Hmatch.
      unfold mutate; simpl. rewrite lookup_insert_eq. simpl.
      unfold record_success. reflexivity.
Qed.

(** X15. [_forward_to_controller] returns what the delivery to the
    controller gave.  After a failed delivery the router is unchanged.  After
    a successful one [successful_deliveries] is one higher, and every route
    of the table whose next-hop address is the address the message came from
    has been confirmed at the current time, so it is not expired; routes
    with another next-hop address, and routes the table does not list, are
    untouched.  In neither case is anything sent. *)
Theorem forward_to_controller_refreshes_routes (now : datetime) (m : RelayMessage)
    (sender_addr : Addr) (R : MeshRouter) :
  let res := _forward_to_controller now m sender_addr R in
  fst res = deliver_to_controller m (controller_client R) /\
  (fst res = false -> snd res = R) /\
  (fst res = true ->
   successful_deliveries (metrics (snd res)) = successful_deliveries (metrics R) + 1 /\
   route_table (snd res) = route_table R /\
   (forall q, q ∈ all_route_refs R ->
              next_hop_addr (deref R q) = sender_addr ->
              last_updated (deref (snd res) q) = now /\
              is_expired now (deref (snd res) q) = false) /\
   (forall q, q ∉ all_route_refs R \/ next_hop_addr (deref R q) <> sender_addr ->
              objects (snd res) !! q = objects R !! q)) /\
  peering (snd res) = peering R.
Proof.
  intros res. subst res. unfold _forward_to_controller, _send_relay_ack.
  cbn [fst snd].
  destruct (deliver_to_controller m (controller_client R)).
  2:{ split; [done|]. split; [done|]. split; [done|done]. }
  pose proof (refresh_routes_spec now sender_addr (all_route_refs R)
                (incr_successful_deliveries R)) as Hloop.
  cbn zeta in Hloop.
  destruct Hloop as ((Ht & Hm & Hp & Hc) & Hstatic & Hother & Hfresh).
  split; [done|]. split; [done|]. split; [|exact Hp].
  intros _. split; [by rewrite Hm|]. split; [exact Ht|]. split.
  - intros q Hq Hmatch. pose proof (Hfresh q Hq Hmatch) as Hnow.
    split; [exact Hnow|].
    unfold is_expired. rewrite Hnow. apply Z.ltb_ge. unfold timedelta. lia.
  - intros q Hq. by apply Hother.
Qed.

Lemma forward_to_controller_refreshes_routes_witness :
  last_updated
    (deref (snd (_forward_to_controller Fixtures.t_now Fixtures.sample_relay_message
                   ("192.168.1.102", 7777)
                   (Fixtures.install_routes "controller" [Fixtures.expired_route_path]
                      Fixtures.mesh_router))) 0%nat)
  = Fixtures.t_now.
Proof.
  apply (proj1 (proj2 (proj2 (forward_to_controller_refreshes_routes Fixtures.t_now
                                Fixtures.sample_relay_message ("192.168.1.102", 7777)
                                (Fixtures.install_routes "controller"
                                   [Fixtures.expired_route_path] Fixtures.mesh_router))))
           ltac:(vm_compute; reflexivity)).
  - vm_compute. left.
  - reflexivity.
Defined.

(** ** The peer table *)

Lemma _check_peer_timeout_cases (now : datetime) (peer_timeout : Q) (peer : PeerInfo) :
  (snd (_check_peer_timeout now peer_timeout peer) = peer /\
   fst (_check_peer_timeout now peer_timeout peer) = None /\
   (status peer = REACHABLE ->
    last_seen peer = None \/
    exists t, last_seen peer = Some t /\ (total_seconds now t <= peer_timeout)%Q)) \/
  (exists t,
     last_seen peer = Some t /\ (peer_timeout < total_seconds now t)%Q /\
     status peer = REACHABLE /\
     snd (_check_peer_timeout now peer_timeout peer)
     = mkPeerInfo (peer_node_id peer) (address peer) (port peer) UNREACHABLE
         (Some t) (rtt_ms peer) /\
     fst (_check_peer_timeout now peer_timeout peer)
     = Some (peer_status_changed
               (mkPeerInfo (peer_node_id peer) (address peer) (port peer) UNREACHABLE
                  (Some t) (rtt_ms peer)) REACHABLE)).
Proof.
  unfold _check_peer_timeout.
  destruct (last_seen peer) as [t|] eqn:Hseen.
  2:{ left. split; [done|]. split; [done|]. intros _. by left. }
  destruct (Qltb peer_timeout (total_seconds now t)) eqn:Hlate; cbn [andb].
  - apply Qltb_spec in Hlate.
    destruct (status peer) eqn:Hst; cbn [PeerStatus_eqb];
      try (left; split; [done|]; split; [done|]; by intros).
    right. exists t. by repeat split.
  - left. split; [done|]. split; [done|]. intros _. right. exists t.
    split; [done|]. apply Qnot_lt_le. intros Hlt.
    apply Qltb_spec in Hlt. congruence.
Qed.

Lemma peer_table_invariant_step (self_id : string) (P P' : MeshPeering) :
  peering_step self_id P P' -> peer_table_invariant P -> peer_table_invariant P'.
Proof.
  intros Hstep Hinv. destruct Hstep.
  - unfold add_static_peer. case_match; [done|].
    intros k peer. simpl. rewrite lookup_insert. case_decide as Hk.
    + subst k. by intros [= <-].
    + apply Hinv.
  - unfold _update_peer_status.
    destruct (peers P !! nid) as [old|] eqn:Hold; intros k peer; simpl;
      rewrite lookup_insert; case_decide as Hk; try apply Hinv.
    + subst k. intros [= <-]. simpl. split; [|done]. by apply (Hinv nid old).
    + subst k. intros [= <-]. simpl. by split.
  - intros k peer. unfold check_peer_timeouts; simpl. rewrite lookup_fmap.
    destruct (peers P !! k) as [old|] eqn:Hold; simpl; [|done].
    intros [= <-]. destruct (Hinv k old Hold) as [Hid Hnever].
    destruct (_check_peer_timeout_cases now peer_timeout old)
      as [(-> & _)|(t & _ & _ & _ & -> & _)]; [by split|].
    by split.
  - unfold send_raw. repeat case_match; exact Hinv.
Qed.

Lemma peer_table_invariant_reachable (self_id : string) (P : MeshPeering) :
  peering_reachable self_id P -> peer_table_invariant P.
Proof.
  induction 1 as [sock|P P' _ IH Hstep].
  - intros k peer. simpl. by rewrite lookup_empty.
  - by eapply peer_table_invariant_step.
Qed.

(** X16. At run time every entry of the peer table sits under its own node
    id, and an entry that was never seen ([last_seen] is [None]) is a
    configured peer: its status is DISCOVERED and it has no RTT.  Static
    configuration, sightings, timeout checks and sends keep it so. *)
Theorem peer_table_consistent (self_id : string) (P : MeshPeering) :
  peering_reachable self_id P -> peer_table_invariant P.
Proof. apply peer_table_invariant_reachable. Qed.

Lemma peer_table_consistent_witness :
  peer_table_invariant
    (snd (_update_peer_status Fixtures.t_now "node-003" ("192.168.1.103", 7777)
            REACHABLE None
            (add_static_peer "test-node-001" "node-002" "192.168.1.102" 7777
               Fixtures.mock_peering))).
Proof.
  apply (peer_table_consistent "test-node-001").
  eapply peering_next; [|apply step_update_peer_status].
  eapply peering_next; [|apply step_add_static_peer].
  apply peering_init.
Defined.

(** X17. After the timeout checks of a heartbeat pass the peer table has
    the same keys; every peer still REACHABLE was seen, and seen within
    [peer_timeout] seconds; a peer changes only from REACHABLE to
    UNREACHABLE, and only if it was last seen more than [peer_timeout]
    seconds ago; address, port, [last_seen] and RTT are never changed. *)
Theorem check_peer_timeouts_spec (self_id : string) (now : datetime)
    (peer_timeout : Q) (P : MeshPeering) :
  peering_reachable self_id P ->
  let P' := check_peer_timeouts now peer_timeout P in
  (forall k, is_Some (peers P' !! k) <-> is_Some (peers P !! k)) /\
  (forall k peer', peers P' !! k = Some peer' ->
     status peer' = REACHABLE ->
     exists t, last_seen peer' = Some t /\ (total_seconds now t <= peer_timeout)%Q) /\
  (forall k peer peer', peers P !! k = Some peer -> peers P' !! k = Some peer' ->
     peer_node_id peer' = peer_node_id peer /\ address peer' = address peer /\
     port peer' = port peer /\ last_seen peer' = last_seen peer /\
     rtt_ms peer' = rtt_ms peer /\
     (status peer' = status peer \/
      (status peer = REACHABLE /\ status peer' = UNREACHABLE /\
       exists t, last_seen peer = Some t /\ (peer_timeout < total_seconds now t)%Q))) /\
  _socket P' = _socket P.
Proof.
  intros Hreach P'. pose proof (peer_table_invariant_reachable _ _ Hreach) as Hinv.
  subst P'. unfold check_peer_timeouts; cbn [peers _socket].
  split; [|split; [|split; [|done]]].
  - intros k. rewrite lookup_fmap. by rewrite fmap_is_Some.
  - intros k peer'. rewrite lookup_fmap.
    destruct (peers P !! k) as [peer|] eqn:Hk; simpl; [|done].
    intros [= <-] Hst.
    destruct (_check_peer_timeout_cases now peer_timeout peer)
      as [(Hsame & _ & Hwithin)|(t & _ & _ & _ & Hnew & _)].
    + rewrite Hsame in Hst |- *.
      destruct (Hwithin Hst) as [Hnone|Hsome]; [|done].
      destruct (Hinv k peer Hk) as [_ Hnever].
      destruct (Hnever Hnone) as [Hd _]. congruence.
    + rewrite Hnew in Hst. done.
  - intros k peer peer' Hk. rewrite lookup_fmap, Hk. simpl. intros [= <-].
    destruct (_check_peer_timeout_cases now peer_timeout peer)
      as [(Hsame & _)|(t & Hseen & Hlate & Hst & Hnew & _)].
    + rewrite Hsame. repeat split. by left.
    + rewrite Hnew. simpl. repeat split; try done.
      right. split; [done|]. split; [done|]. by exists t.
Qed.

Lemma check_peer_timeouts_spec_witness :
  last_seen
    (mkPeerInfo "node-003" "192.168.1.103" 7777 UNREACHABLE (Some Fixtures.t_now) None)
  = last_seen
      (mkPeerInfo "node-003" "192.168.1.103" 7777 REACHABLE (Some Fixtures.t_now) None).
Proof.
  apply (proj1 (proj2 (proj2 (check_peer_timeouts_spec "test-node-001"
                                (Fixtures.t_now + timedelta 45) 30
                                (snd (_update_peer_status Fixtures.t_now "node-003"
                                        ("192.168.1.103", 7777) REACHABLE None
                                        Fixtures.mock_peering))
                                ltac:(eapply peering_next;
                                      [apply peering_init
                                      |apply step_update_peer_status]))))
           "node-003").
  - vm_compute. reflexivity.
  - vm_compute. reflexivity.
Defined.

(** X18. A sighting, then a timeout check.  After a ping or pong from a
    node, that node is in the table as REACHABLE with [last_seen] now, and
    [get_reachable_peers] lists it; a peer already known keeps the address
    and port it had, whatever address the datagram came from, while an
    unknown one takes the datagram's address.  A later timeout check leaves
    it REACHABLE if at most [peer_timeout] seconds have passed since the
    sighting and marks it UNREACHABLE otherwise. *)
Theorem sighting_then_timeout (now now' : datetime) (peer_timeout : Q)
    (nid : string) (addr : Addr) (rtt : option Q) (P : MeshPeering) :
  let P1 := snd (_update_peer_status now nid addr REACHABLE rtt P) in
  let P2 := check_peer_timeouts now' peer_timeout P1 in
  (exists peer,
     peers P1 !! nid = Some peer /\
     status peer = REACHABLE /\ last_seen peer = Some now /\
     peer ∈ get_reachable_peers P1 /\
     (address peer, port peer)
     = match peers P !! nid with
       | Some old => (address old, port old)
       | None => addr
       end) /\
  (exists peer2,
     peers P2 !! nid = Some peer2 /\
     status peer2
     = if Qltb peer_timeout (total_seconds now' now) then UNREACHABLE else REACHABLE).
Proof.
  intros P1 P2.
  assert (H1 : exists peer,
            peers P1 !! nid = Some peer /\
            status peer = REACHABLE /\ last_seen peer = Some now /\
            (address peer, port peer)
            = match peers P !! nid with
              | Some old => (address old, port old)
              | None => addr
              end).
  { subst P1. unfold _update_peer_status.
    destruct (peers P !! nid) as [old|]; eexists; simpl;
      (split; [apply lookup_insert_eq|]); simpl; repeat split.
    by destruct addr. }
  destruct H1 as (peer & Hlook & Hst & Hseen & Haddr).
  split.
  - exists peer. repeat split; try done.
    unfold get_reachable_peers. apply elem_of_filter_bool. split.
    + apply list_elem_of_fmap. exists (nid, peer). split; [done|].
      by apply elem_of_map_to_list.
    + by rewrite Hst.
  - subst P2. unfold check_peer_timeouts; cbn [peers].
    exists (snd (_check_peer_timeout now' peer_timeout peer)).
    split; [by rewrite lookup_fmap, Hlook|].
    unfold _check_peer_timeout. rewrite Hseen, Hst. cbn [PeerStatus_eqb].
    rewrite andb_true_r. by destruct (Qltb _ _).
Qed.

(** ** The status summary *)

Lemma status_value_inj (a b : PeerStatus) : status_value a = status_value b -> a = b.
Proof. by destruct a, b. Qed.

Lemma summary_count (st : PeerStatus) (l : list PeerInfo) :
  forall summary : gmap string Z,
    foldl (fun summary peer =>
             <[status_value (status peer) :=
                 (summary !!! status_value (status peer)) + 1]> summary)
      summary l !!! status_value st
    = summary !!! status_value st
      + Z.of_nat (length (List.filter (fun p => PeerStatus_eqb (status p) st) l)).
Proof.
  induction l as [|peer l IH]; intros summary; cbn [foldl List.filter].
  { simpl. lia. }
  rewrite IH.
  destruct (PeerStatus_eqb (status peer) st) eqn:Heq.
  - assert (status peer = st) as -> by (by destruct (status peer), st).
    rewrite lookup_total_insert_eq. simpl length. lia.
  - rewrite lookup_total_insert_ne; [done|].
    intros Hv%status_value_inj. rewrite Hv in Heq. by destruct st.
Qed.

Lemma summary_keys (l : list PeerInfo) :
  forall summary : gmap string Z,
    dom (foldl (fun summary peer =>
                  <[status_value (status peer) :=
                      (summary !!! status_value (status peer)) + 1]> summary)
           summary l)
    = dom summary ∪ list_to_set ((fun p => status_value (status p)) <$> l).
Proof.
  induction l as [|peer l IH]; intros summary; cbn [foldl].
  { simpl. by rewrite union_empty_r_L. }
  rewrite IH, dom_insert_L, fmap_cons. cbn [list_to_set].
  apply set_eq. intros k. rewrite !elem_of_union. tauto.
Qed.

Lemma status_partition (l : list PeerInfo) :
  (length (List.filter (fun p => PeerStatus_eqb (status p) UNKNOWN) l)
   + length (List.filter (fun p => PeerStatus_eqb (status p) DISCOVERED) l)
   + length (List.filter (fun p => PeerStatus_eqb (status p) REACHABLE) l)
   + length (List.filter (fun p => PeerStatus_eqb (status p) UNREACHABLE) l)
   = length l)%nat.
Proof.
  induction l as [|peer l IH]; simpl; [done|].
  destruct (status peer); simpl; lia.
Qed.

(** X19. [get_peer_status_summary] has exactly the four status values as
    keys; the count under each is the number of peers with that status, so
    the four counts add up to the number of peers and the count under
    "reachable" is the length of [get_reachable_peers]. *)
Theorem get_peer_status_summary_spec (P : MeshPeering) :
  let summary := get_peer_status_summary P in
  dom summary = {["unknown"; "discovered"; "reachable"; "unreachable"]} /\
  (forall st,
     summary !! status_value st
     = Some (Z.of_nat (length (List.filter (fun p => PeerStatus_eqb (status p) st)
                                 (snd <$> map_to_list (peers P)))))) /\
  summary !!! "unknown" + summary !!! "discovered" + summary !!! "reachable"
  + summary !!! "unreachable" = Z.of_nat (size (peers P)) /\
  summary !!! "reachable" = Z.of_nat (length (get_reachable_peers P)).
Proof.
  intros summary. subst summary. unfold get_peer_status_summary.
  set (init := list_to_map _).
  assert (Hinit : forall st, init !!! status_value st = 0)
    by (intros st; by destruct st).
  assert (Hcount : forall st,
            foldl (fun summary peer =>
                     <[status_value (status peer) :=
                         (summary !!! status_value (status peer)) + 1]> summary)
              init (snd <$> map_to_list (peers P)) !!! status_value st
            = Z.of_nat (length (List.filter (fun p => PeerStatus_eqb (status p) st)
                                  (snd <$> map_to_list (peers P))))).
  { intros st. rewrite summary_count, Hinit. lia. }
  assert (Hdom : dom (foldl (fun summary peer =>
                     <[status_value (status peer) :=
                         (summary !!! status_value (status peer)) + 1]> summary)
              init (snd <$> map_to_list (peers P)))
                 = {["unknown"; "discovered"; "reachable"; "unreachable"]}).
  { rewrite summary_keys.
    assert (Hd : dom init = {["unknown"; "discovered"; "reachable"; "unreachable"]})
      by (subst init; simpl; rewrite !dom_insert_L, dom_empty_L; set_solver).
    rewrite Hd. apply set_eq. intros k. rewrite elem_of_union. split; [|by left].
    intros [Hk|Hk]; [done|].
    apply elem_of_list_to_set, list_elem_of_fmap in Hk as (p & -> & _).
    destruct (status p); set_solver. }
  split; [exact Hdom|]. split; [|split].
  - intros st.
    assert (Hin : status_value st ∈ dom (foldl (fun summary peer =>
                     <[status_value (status peer) :=
                         (summary !!! status_value (status peer)) + 1]> summary)
              init (snd <$> map_to_list (peers P))))
      by (rewrite Hdom; destruct st; set_solver).
    apply elem_of_dom in Hin as [v Hv].
    specialize (Hcount st). rewrite lookup_total_alt, Hv in Hcount.
    simpl in Hcount. by rewrite Hv, Hcount.
  - pose proof (Hcount UNKNOWN) as H1. pose proof (Hcount DISCOVERED) as H2.
    pose proof (Hcount REACHABLE) as H3. pose proof (Hcount UNREACHABLE) as H4.
    cbn [status_value] in H1, H2, H3, H4. rewrite H1, H2, H3, H4.
    pose proof (status_partition (snd <$> map_to_list (peers P))) as Hpart.
    rewrite length_fmap, length_map_to_list in Hpart. lia.
  - pose proof (Hcount REACHABLE) as H3. cbn [status_value] in H3.
    rewrite H3. reflexivity.
Qed.

(** ** The buffer: one insertion, flushing, counting, reloading *)

Section BufferOps.

Import Buffer BufferFlush.

Lemma items__save_to_disk (io_ok : bool) (b : LocalBuffer) :
  items (_save_to_disk io_ok b) = items b /\
  max_items (_save_to_disk io_ok b) = max_items b /\
  persist_path (_save_to_disk io_ok b) = persist_path b /\
  flush_batch_size (_save_to_disk io_ok b) = flush_batch_size b.
Proof. unfold _save_to_disk. by case_match. Qed.

(** X20. Whatever the buffer holds and whatever [max_items] is, one
    [_add_item] leaves [min (size + 1) (max 0 max_items)] items: the old
    items and the new one at the tail, less what overflows at the head.  With
    [max_items >= 1] the new item is the last item; with [max_items <= 0] the
    buffer is empty afterwards and the new item is lost at once. *)
Theorem add_item_size (io_ok : bool) (ty : string) (d : JSON) (ts : string)
    (b : LocalBuffer) :
  let b' := _add_item io_ok ty d ts b in
  size b' = Z.min (size b + 1) (Z.max 0 (max_items b)) /\
  (exists k, items b' = drop k (items b ++ [mkBufferedItem ty d ts 0])) /\
  (1 <= max_items b -> last (items b') = Some (mkBufferedItem ty d ts 0)) /\
  (max_items b <= 0 -> items b' = []).
Proof.
  intros b'.
  assert (Hitems : items b'
            = if max_items b <? Z.of_nat (length (items b ++ [mkBufferedItem ty d ts 0]))
              then drop (Z.to_nat (Z.of_nat (length (items b ++ [mkBufferedItem ty d ts 0]))
                                   - max_items b))
                     (items b ++ [mkBufferedItem ty d ts 0])
              else items b ++ [mkBufferedItem ty d ts 0]).
  { subst b'. unfold _add_item. cbn [items set_items max_items].
    destruct (max_items b <? _); cbn [items set_items];
      case_match; by rewrite ?(proj1 (items__save_to_disk _ _)). }
  clearbody b'. unfold size. rewrite Hitems. clear Hitems.
  set (l := items b ++ [mkBufferedItem ty d ts 0]).
  assert (Hlen : length l = S (length (items b)))
    by (subst l; rewrite length_app; simpl; lia).
  destruct (Z.ltb_spec (max_items b) (Z.of_nat (length l))) as [Hlt|Hge].
  - split; [rewrite length_drop; lia|]. split; [by eexists|]. split.
    + intros Hpos. subst l. rewrite drop_app_le by (rewrite length_app in *; simpl in *; lia).
      by rewrite last_snoc.
    + intros Hneg. apply drop_ge. lia.
  - split; [lia|]. split; [by exists 0%nat|]. split.
    + intros _. subst l. by rewrite last_snoc.
    + intros Hneg. lia.
Qed.

Lemma add_item_size_witness :
  items (_add_item true "telemetry" (JObj []) "t9" (Fixtures.fresh_buffer 0)) = [].
Proof.
  apply (proj2 (proj2 (proj2
           (add_item_size true "telemetry" (JObj []) "t9" (Fixtures.fresh_buffer 0))))).
  simpl. lia.
Defined.

Lemma filter_sublist {A : Type} (P : A -> bool) (l : list A) :
  List.filter P l `sublist_of` l.
Proof.
  induction l as [|x l IH]; simpl; [constructor|].
  destruct (P x); by constructor.
Qed.

Lemma slice_to_prefix {A : Type} (n : Z) (l : list A) :
  exists rest, l = slice_to n l ++ rest.
Proof.
  unfold slice_to. destruct (0 <=? n); eexists; by rewrite take_drop.
Qed.

Lemma slice_to_length {A : Type} (n : Z) (l : list A) :
  0 <= n -> Z.of_nat (length (slice_to n l)) = Z.min n (Z.of_nat (length l)).
Proof.
  intros Hn. unfold slice_to.
  replace (0 <=? n) with true by (symmetry; by apply Z.leb_le).
  rewrite length_take. lia.
Qed.

Lemma elem_of_key_set (k : string * string) (batch : list BufferedItem) :
  k ∈ key_set batch <-> exists j, j ∈ batch /\ item_key j = k.
Proof.
  unfold key_set. rewrite elem_of_list_to_set, list_elem_of_fmap.
  split; intros [j Hj]; exists j; by destruct Hj.
Qed.

(** X21. [get_items_to_flush] returns a prefix of the buffered items of the
    requested type (of all items when the type is [None] or the empty
    string), oldest first, and so a sublist of the buffer; with a
    non-negative [flush_batch_size] the batch has
    [min flush_batch_size (number of such items)] items. *)
Theorem get_items_to_flush_spec (ty : option string) (b : LocalBuffer) :
  let batch := get_items_to_flush ty b in
  let filtered :=
    match ty with
    | Some t => if String.eqb t "" then items b
                else List.filter (fun i => String.eqb (item_type i) t) (items b)
    | None => items b
    end in
  (exists rest, filtered = batch ++ rest) /\
  batch `sublist_of` items b /\
  (forall t i, ty = Some t -> t <> "" -> i ∈ batch -> item_type i = t) /\
  (0 <= flush_batch_size b ->
   Z.of_nat (length batch) = Z.min (flush_batch_size b) (Z.of_nat (length filtered))).
Proof.
  intros batch filtered.
  assert (Hbatch : batch = slice_to (flush_batch_size b) filtered) by reflexivity.
  clearbody batch.
  destruct (slice_to_prefix (flush_batch_size b) filtered) as [rest Hrest].
  rewrite <- Hbatch in Hrest.
  assert (Hsub : filtered `sublist_of` items b).
  { subst filtered. destruct ty as [t|]; [|done].
    destruct (String.eqb t ""); [done|apply filter_sublist]. }
  split; [by exists rest|]. split; [|split].
  - etrans; [|exact Hsub]. rewrite Hrest. by apply sublist_inserts_r.
  - intros t i -> Ht Hi.
    assert (Hin : i ∈ filtered) by (rewrite Hrest; set_solver).
    subst filtered. apply String.eqb_neq in Ht. rewrite Ht in Hin.
    apply elem_of_filter_bool in Hin as [_ Hin]. by apply String.eqb_eq.
  - intros Hn. rewrite Hbatch. by apply slice_to_length.
Qed.

Lemma get_items_to_flush_spec_witness :
  Z.of_nat (length (get_items_to_flush (Some "telemetry")
                      (insert_all Fixtures.three_insertions (Fixtures.fresh_buffer 10))))
  = 2.
Proof.
  etrans.
  - apply (proj2 (proj2 (proj2 (get_items_to_flush_spec (Some "telemetry")
                                  (insert_all Fixtures.three_insertions
                                     (Fixtures.fresh_buffer 10)))))).
    vm_compute. discriminate.
  - vm_compute. reflexivity.
Defined.

Lemma filter_drops_sublist {A : Type} (P : A -> bool) (l' l : list A) :
  l' `sublist_of` l -> (forall x, x ∈ l' -> P x = false) ->
  (length (List.filter P l) + length l' <= length l)%nat.
Proof.
  induction 1 as [|x l1 l2 Hsub IH|x l1 l2 Hsub IH]; intros Hall; simpl.
  - lia.
  - rewrite (Hall x) by left.
    specialize (IH (fun y Hy => Hall y (list_elem_of_further _ _ _ Hy))). lia.
  - specialize (IH Hall). destruct (P x); simpl; lia.
Qed.

Lemma filter_idemp {A : Type} (P : A -> bool) (l : list A) :
  List.filter P (List.filter P l) = List.filter P l.
Proof.
  induction l as [|x l IH]; [done|].
  cbn [List.filter]. destruct (P x) eqn:Hx; [|exact IH].
  cbn [List.filter]. by rewrite Hx, IH.
Qed.

Lemma mark_flushed_items (io_ok : bool) (batch : list BufferedItem) (b : LocalBuffer) :
  items (mark_flushed io_ok batch b)
  = List.filter (fun i => negb (bool_decide (item_key i ∈ key_set batch))) (items b).
Proof.
  unfold mark_flushed. case_match; [|done].
  by rewrite (proj1 (items__save_to_disk _ _)).
Qed.

(** X22. [mark_flushed] keeps exactly the items whose (type, timestamp)
    pair matches no item of the batch, in their order: every item of the
    batch is gone, and so is any other buffered item that shares type and
    timestamp with one of them.  When the batch is a sublist of the buffer
    (as a batch of [get_items_to_flush] is) the buffer shrinks by at least
    the length of the batch, and marking the same batch again changes
    nothing more. *)
Theorem mark_flushed_spec (io_ok : bool) (batch : list BufferedItem)
    (b : LocalBuffer) :
  let b' := mark_flushed io_ok batch b in
  (forall i, i ∈ items b' <->
             i ∈ items b /\ ~ exists j, j ∈ batch /\ item_key j = item_key i) /\
  items b' `sublist_of` items b /\
  (forall i, i ∈ batch -> i ∉ items b') /\
  (batch `sublist_of` items b -> size b' + Z.of_nat (length batch) <= size b) /\
  (forall io_ok', items (mark_flushed io_ok' batch b') = items b') /\
  max_items b' = max_items b.
Proof.
  intros b'. pose proof (mark_flushed_items io_ok batch b) as Hitems.
  fold b' in Hitems.
  assert (Hmem : forall i, i ∈ items b' <->
             i ∈ items b /\ ~ exists j, j ∈ batch /\ item_key j = item_key i).
  { intros i. rewrite Hitems, elem_of_filter_bool, negb_true_iff,
      bool_decide_eq_false, elem_of_key_set. done. }
  split; [exact Hmem|]. split; [rewrite Hitems; apply filter_sublist|].
  split; [|split; [|split]].
  - intros i Hi [_ Hnot]%Hmem. apply Hnot. by exists i.
  - intros Hsub. unfold size. rewrite Hitems.
    pose proof (filter_drops_sublist
                  (fun i => negb (bool_decide (item_key i ∈ key_set batch)))
                  batch (items b) Hsub) as Hlen.
    assert (Hall : forall x, x ∈ batch ->
              negb (bool_decide (item_key x ∈ key_set batch)) = false).
    { intros x Hx. apply negb_false_iff, bool_decide_eq_true, elem_of_key_set.
      by exists x. }
    specialize (Hlen Hall). lia.
  - intros io_ok'. rewrite mark_flushed_items, Hitems. apply filter_idemp.
  - subst b'. unfold mark_flushed. case_match; [|done].
    by rewrite (proj1 (proj2 (items__save_to_disk _ _))).
Qed.

Lemma mark_flushed_spec_witness :
  size (mark_flushed true
          (get_items_to_flush (Some "telemetry")
             (insert_all Fixtures.three_insertions (Fixtures.fresh_buffer 10)))
          (insert_all Fixtures.three_insertions (Fixtures.fresh_buffer 10)))
  + 2 <= 3.
Proof.
  apply (proj1 (proj2 (proj2 (proj2
           (mark_flushed_spec true
              (get_items_to_flush (Some "telemetry")
                 (insert_all Fixtures.three_insertions (Fixtures.fresh_buffer 10)))
              (insert_all Fixtures.three_insertions (Fixtures.fresh_buffer 10))))))).
  vm_compute. repeat constructor.
Defined.

Lemma filter_fmap_stable {A : Type} (P : A -> bool) (f : A -> A) (l : list A) :
  (forall x, P (f x) = P x) ->
  List.filter P (f <$> l) = f <$> List.filter P l.
Proof.
  intros HP. induction l as [|x l IH]; [done|].
  cbn [fmap list_fmap List.filter]. rewrite HP.
  destruct (P x); cbn [fmap list_fmap]; by rewrite <- IH.
Qed.

Lemma slice_to_fmap {A B : Type} (f : A -> B) (n : Z) (l : list A) :
  slice_to n (f <$> l) = f <$> slice_to n l.
Proof.
  unfold slice_to. rewrite length_fmap. destruct (0 <=? n); by rewrite fmap_take.
Qed.

Lemma mark_failed_items (io_ok : bool) (batch : list BufferedItem) (b : LocalBuffer) :
  items (mark_failed io_ok batch b)
  = (fun i => if bool_decide (item_key i ∈ key_set batch)
              then mkBufferedItem (item_type i) (data i) (timestamp i)
                     (attempt_count i + 1)
              else i) <$> items b /\
  max_items (mark_failed io_ok batch b) = max_items b /\
  persist_path (mark_failed io_ok batch b) = persist_path b /\
  flush_batch_size (mark_failed io_ok batch b) = flush_batch_size b.
Proof.
  unfold mark_failed. case_match; [|done].
  destruct (items__save_to_disk io_ok
              (set_items
                 ((fun i => if bool_decide (item_key i ∈ key_set batch)
                            then mkBufferedItem (item_type i) (data i) (timestamp i)
                                   (attempt_count i + 1)
                            else i) <$> items b) b)) as (-> & -> & -> & ->).
  done.
Qed.

(** X23. [mark_failed] removes nothing and reorders nothing: the buffer
    keeps its length, and the item at each position keeps its type, data and
    timestamp; its [attempt_count] grows by one when its (type, timestamp)
    pair is that of an item of the batch, and is unchanged otherwise.  No
    number of failures drops an item, so the next batch of
    [get_items_to_flush] consists of the same items, in the same order, as
    the batch before the failure. *)
Theorem mark_failed_spec (io_ok : bool) (batch : list BufferedItem)
    (b : LocalBuffer) :
  let b' := mark_failed io_ok batch b in
  size b' = size b /\
  (forall n i, items b !! n = Some i ->
     exists i', items b' !! n = Some i' /\
       item_type i' = item_type i /\ data i' = data i /\
       timestamp i' = timestamp i /\
       ((exists j, j ∈ batch /\ item_key j = item_key i) ->
        attempt_count i' = attempt_count i + 1) /\
       ((~ exists j, j ∈ batch /\ item_key j = item_key i) -> i' = i)) /\
  (forall ty, item_key <$> get_items_to_flush ty b'
              = item_key <$> get_items_to_flush ty b) /\
  (forall ty, data <$> get_items_to_flush ty b'
              = data <$> get_items_to_flush ty b).
Proof.
  intros b'. destruct (mark_failed_items io_ok batch b) as (Hitems & _ & _ & Hfb).
  fold b' in Hitems, Hfb.
  set (bump := fun i : BufferedItem =>
                 if bool_decide (item_key i ∈ key_set batch)
                 then mkBufferedItem (item_type i) (data i) (timestamp i)
                        (attempt_count i + 1)
                 else i) in *.
  assert (Hty : forall i, item_type (bump i) = item_type i)
    by (intros i; unfold bump; by case_bool_decide).
  assert (Hkey : forall i, item_key (bump i) = item_key i)
    by (intros i; unfold bump; by case_bool_decide).
  assert (Hdata : forall i, data (bump i) = data i)
    by (intros i; unfold bump; by case_bool_decide).
  assert (Hbatch : forall ty, get_items_to_flush ty b' = bump <$> get_items_to_flush ty b).
  { intros ty. unfold get_items_to_flush. rewrite Hfb, Hitems.
    destruct ty as [t|]; [|apply slice_to_fmap].
    destruct (String.eqb t ""); [apply slice_to_fmap|].
    rewrite (filter_fmap_stable (fun i => String.eqb (item_type i) t) bump)
      by (intros x; by rewrite Hty).
    apply slice_to_fmap. }
  split; [unfold size; by rewrite Hitems, length_fmap|]. split; [|split].
  - intros n i Hn. exists (bump i). rewrite Hitems, list_lookup_fmap, Hn.
    split; [done|]. split; [apply Hty|]. split; [apply Hdata|].
    split; [by injection (Hkey i)|]. split.
    + intros Hj. apply elem_of_key_set in Hj. unfold bump.
      by rewrite bool_decide_eq_true_2.
    + intros Hj. unfold bump. rewrite bool_decide_eq_false_2; [done|].
      by rewrite elem_of_key_set.
  - intros ty. rewrite Hbatch, <- list_fmap_compose. apply list_fmap_ext.
    intros ? x _. apply Hkey.
  - intros ty. rewrite Hbatch, <- list_fmap_compose. apply list_fmap_ext.
    intros ? x _. apply Hdata.
Qed.

Lemma mark_failed_spec_witness :
  exists i',
    items (mark_failed true [mkBufferedItem "telemetry" (JObj []) "t1" 7]
             (insert_all Fixtures.three_insertions (Fixtures.fresh_buffer 10)))
      !! 0%nat = Some i' /\
    attempt_count i' = 1.
Proof.
  destruct (proj1 (proj2 (mark_failed_spec true
                            [mkBufferedItem "telemetry" (JObj []) "t1" 7]
                            (insert_all Fixtures.three_insertions
                               (Fixtures.fresh_buffer 10))))
              0%nat (mkBufferedItem "telemetry" (JObj [("cpu", JNum 1)]) "t1" 0)
              eq_refl) as (i' & Hi' & _ & _ & _ & Hbump & _).
  exists i'. split; [exact Hi'|].
  apply Hbump. eexists. split; [by apply list_elem_of_singleton|reflexivity].
Defined.

Lemma save_after_set (io_ok : bool) (l : list BufferedItem) (b : LocalBuffer) :
  let b' := if persist_configured (set_items l b)
            then _save_to_disk io_ok (set_items l b) else set_items l b in
  items b' = l /\
  max_items b' = max_items b /\ persist_path b' = persist_path b /\
  flush_batch_size b' = flush_batch_size b /\
  disk b' = if persist_configured b && io_ok then Some l else disk b.
Proof.
  unfold _save_to_disk, set_items, persist_configured. cbn.
  destruct (persist_path b) as [s|]; [|done].
  destruct (negb (String.eqb s "")); [|done].
  by destruct io_ok.
Qed.

Lemma apply_mutation_shape (io_ok : bool) (op : Mutation) (b : LocalBuffer) :
  exists l, apply_mutation io_ok op b
            = if persist_configured (set_items l b)
              then _save_to_disk io_ok (set_items l b) else set_items l b.
Proof.
  destruct op as [ty d ts|batch|batch|]; cbn [apply_mutation].
  - unfold _add_item. cbv zeta.
    destruct (max_items _ <? _); eexists; reflexivity.
  - eexists; reflexivity.
  - eexists; reflexivity.
  - eexists; reflexivity.
Qed.

(** X24. Persistence of the buffer.  Each operation that changes the
    buffer ([_add_item], [mark_flushed], [mark_failed], [clear]) leaves
    [max_items], [persist_path] and [flush_batch_size] alone.  With a
    [persist_path] configured and a write that goes through, the file holds
    the items as they are after the operation, and a [LocalBuffer] built
    later with the same settings on that (readable) file is the buffer
    itself.  When the write fails the file keeps its older content, so a
    restart comes back with the items of the last write that went through;
    with no [persist_path] the file system is never touched and a restart
    starts empty. *)
Theorem buffer_persistence (io_ok : bool) (op : Mutation) (b : LocalBuffer) :
  let b' := apply_mutation io_ok op b in
  let restart := LocalBuffer_init (max_items b') (persist_path b')
                   (flush_batch_size b') (disk b') true in
  max_items b' = max_items b /\ persist_path b' = persist_path b /\
  flush_batch_size b' = flush_batch_size b /\
  (persist_configured b = true -> io_ok = true ->
   disk b' = Some (items b') /\ restart = b') /\
  (persist_configured b = true -> io_ok = false ->
   disk b' = disk b /\ items restart = default [] (disk b)) /\
  (persist_configured b = false -> disk b' = disk b /\ items restart = []).
Proof.
  intros b' restart.
  destruct (apply_mutation_shape io_ok op b) as [l Hl]. fold b' in Hl.
  destruct (save_after_set io_ok l b) as (Hi & Hm & Hp & Hf & Hd).
  cbv zeta in Hi, Hm, Hp, Hf, Hd. rewrite <- Hl in Hi, Hm, Hp, Hf, Hd.
  assert (Hpc : persist_configured b' = persist_configured b)
    by (unfold persist_configured; by rewrite Hp).
  split; [exact Hm|]. split; [exact Hp|]. split; [exact Hf|].
  subst restart. unfold LocalBuffer_init, _load_from_disk.
  change (persist_configured (mkLocalBuffer (max_items b') (persist_path b')
            (flush_batch_size b') [] (disk b')))
    with (persist_configured b').
  rewrite Hpc. split; [|split].
  - intros Hc ->. rewrite Hc in Hd |- *. cbn in Hd |- *.
    rewrite Hd, Hi. split; [done|].
    unfold set_items. cbn. destruct b'. cbn in *. by subst.
  - intros Hc ->. rewrite Hc in Hd |- *. cbn in Hd |- *. rewrite Hd.
    split; [done|]. by destruct (disk b).
  - intros Hc. rewrite Hc in Hd |- *. cbn in Hd |- *. by rewrite Hd.
Qed.

Lemma buffer_persistence_witness :
  LocalBuffer_init 2 (Some "/var/lib/tacticalmesh/buffer.json") 50
    (disk (apply_mutation true (do_add "telemetry" (JObj []) "t4")
             (insert_all Fixtures.three_insertions (Fixtures.persistent_buffer 2))))
    true
  = apply_mutation true (do_add "telemetry" (JObj []) "t4")
      (insert_all Fixtures.three_insertions (Fixtures.persistent_buffer 2)).
Proof.
  exact (proj2 (proj1 (proj2 (proj2 (proj2
           (buffer_persistence true (do_add "telemetry" (JObj []) "t4")
              (insert_all Fixtures.three_insertions
                 (Fixtures.persistent_buffer 2))))))
           eq_refl eq_refl)).
Defined.

Lemma pending_fold (l : list BufferedItem) (counts : gmap string Z) (k : string) :
  foldl (fun counts item =>
           <[item_type item := default 0 (counts !! item_type item) + 1]> counts)
    counts l !! k
  = let c := Z.of_nat (length (List.filter (fun i => String.eqb (item_type i) k) l)) in
    if c =? 0 then counts !! k else Some (default 0 (counts !! k) + c).
Proof.
  revert counts. induction l as [|x l IH]; intros counts; [done|].
  cbn [foldl List.filter]. rewrite IH. cbv zeta.
  set (c := Z.of_nat (length (List.filter (fun i => String.eqb (item_type i) k) l))).
  assert (Hc0 : 0 <= c) by (subst c; lia).
  destruct (String.eqb_spec (item_type x) k) as [Heq|Hne].
  - rewrite Heq, lookup_insert_eq. cbn [length default].
    fold c. replace (Z.of_nat (S (length (List.filter
               (fun i => String.eqb (item_type i) k) l)))) with (c + 1)
      by (subst c; lia).
    replace (c + 1 =? 0) with false by (symmetry; apply Z.eqb_neq; lia).
    destruct (Z.eqb_spec c 0) as [Hc|Hc]; [rewrite Hc|]; f_equal; unfold id; lia.
  - fold c. by rewrite lookup_insert_ne.
Qed.

(** X25. [get_pending_count] reports, under ["telemetry"] and under
    ["command_result"], the number of buffered items of that type, and
    under any other type the number of items of that type when there is
    one (no entry otherwise).  The entry ["total"] is the number of buffered
    items plus the number of items whose type is itself ["total"]: it is the
    size of the buffer when no item has that type, as is the case for a
    buffer filled by [add_telemetry] and [add_command_result]. *)
Theorem get_pending_count_spec (b : LocalBuffer) :
  let n := fun k => Z.of_nat (length (List.filter
                      (fun i => String.eqb (item_type i) k) (items b))) in
  get_pending_count b !! "telemetry" = Some (n "telemetry") /\
  get_pending_count b !! "command_result" = Some (n "command_result") /\
  get_pending_count b !! "total" = Some (size b + n "total") /\
  (forall k, k <> "telemetry" -> k <> "command_result" -> k <> "total" ->
     get_pending_count b !! k = if n k =? 0 then None else Some (n k)) /\
  ((forall i, i ∈ items b -> item_type i <> "total") ->
   get_pending_count b !! "total" = Some (size b)).
Proof.
  intros n.
  assert (Htot : get_pending_count b !! "total" = Some (size b + n "total")).
  { unfold get_pending_count. rewrite pending_fold. cbv zeta. fold (n "total").
    rewrite lookup_insert_eq. cbn [default].
    destruct (Z.eqb_spec (n "total") 0) as [->|_]; [f_equal; lia|done]. }
  unfold get_pending_count in *.
  split; [|split; [|split; [|split]]].
  - rewrite pending_fold. cbv zeta. fold (n "telemetry").
    rewrite lookup_insert_ne, lookup_insert_ne, lookup_insert_eq by done.
    cbn [default]. by destruct (Z.eqb_spec (n "telemetry") 0) as [->|_].
  - rewrite pending_fold. cbv zeta. fold (n "command_result").
    rewrite lookup_insert_ne, lookup_insert_eq by done.
    cbn [default]. by destruct (Z.eqb_spec (n "command_result") 0) as [->|_].
  - exact Htot.
  - intros k H1 H2 H3. rewrite pending_fold. cbv zeta. fold (n k).
    rewrite !lookup_insert_ne, lookup_empty by done. done.
  - intros Hno. rewrite Htot. f_equal.
    assert (Hz : n "total" = 0); [|lia].
    subst n. cbv beta. clear Htot. revert Hno.
    generalize (items b). intros l. induction l as [|x l IH]; intros Hno; [done|].
    cbn [List.filter].
    destruct (String.eqb_spec (item_type x) "total") as [Hx|_].
    + exfalso. by apply (Hno x); [left|].
    + apply IH. intros i Hi. apply Hno. by right.
Qed.

Lemma get_pending_count_spec_witness :
  get_pending_count (insert_all Fixtures.three_insertions (Fixtures.fresh_buffer 10))
    !! "total" = Some 3.
Proof.
  etrans.
  - apply (proj2 (proj2 (proj2 (proj2
             (get_pending_count_spec
                (insert_all Fixtures.three_insertions (Fixtures.fresh_buffer 10))))))).
    intros i Hi. vm_compute in Hi.
    apply elem_of_cons in Hi as [->|Hi]; [discriminate|].
    apply elem_of_cons in Hi as [->|Hi]; [discriminate|].
    apply elem_of_cons in Hi as [->|Hi]; [discriminate|].
    by apply elem_of_nil in Hi.
  - reflexivity.
Defined.

End BufferOps.
